(** * ToolRunner (src/node/lib/toolrunner.ts): argument builder and process invoker

    A shallow embedding of the [ToolRunner] class: the argument builder
    ([_argStringToArray], [arg], [pathArg], [argIf]), the streaming invoker
    ([exec], as the handlers it registers on the child process) and the
    blocking invoker ([execSync]).

    Conventions.
    - A JavaScript string is a [string]; one [ascii] stands for one character.
    - Everything the class does to the outside world (a call of the module's
      [debug], an event emitted on the runner, a write on a stream, a spawn)
      is appended to a log, in program order.
    - A method is a computation in the monad [M]: it reads and updates the
      runner object and the log, and it either returns or throws.  What was
      logged before a throw stays logged. *)

From Stdlib Require Import String Ascii List Bool Arith ZArith Lia.
From Stdlib Require Import DecimalString.
Import ListNotations.
Local Open Scope string_scope.
Local Open Scope list_scope.

(** ** Characters and strings *)

(** The double quote, character 34, and the space, character 32. *)
Definition dquote : ascii := "034"%char.
Definition space : ascii := " "%char.

(** A one-character string holding a double quote, to write inputs with. *)
Definition q : string := String dquote EmptyString.

(** JavaScript's [s.substring(0, n)] and the rest of [s] from index [n]. *)
Fixpoint take (n : nat) (s : string) : string :=
  match n, s with
  | S n', String c s' => String c (take n' s')
  | _, _ => EmptyString
  end.

Fixpoint drop (n : nat) (s : string) : string :=
  match n, s with
  | S n', String _ s' => drop n' s'
  | _, _ => s
  end.

(** [Array.prototype.join]. *)
Fixpoint join (sep : string) (l : list string) : string :=
  match l with
  | [] => EmptyString
  | [x] => x
  | x :: l' => x ++ sep ++ join sep l'
  end.

(** ** Regular expressions

    The fragment of JavaScript's regular expressions that the source uses:
    a literal character, a negated character class under a greedy [*] or
    [+], concatenation, alternation (left alternative first) and a group. *)

Inductive regex : Type :=
| RChar (c : ascii)
| RStarNot (cs : list ascii)
| RPlusNot (cs : list ascii)
| RSeq (r1 r2 : regex)
| RAlt (r1 r2 : regex)
| RGroup (r : regex).

(** [c] belongs to the negated class [[^cs]]. *)
Definition in_negated_class (cs : list ascii) (c : ascii) : bool :=
  negb (existsb (Ascii.eqb c) cs).

(** The backtracking matcher, in continuation-passing style: [k] is what has
    to match after this piece, and the answer is the input left over after
    the whole match.  A greedy repetition takes one more character when it
    can and gives it back when the continuation fails. *)
Fixpoint star_not (cs : list ascii) (s : string)
    (k : string -> option string) : option string :=
  match s with
  | String c s' =>
      if in_negated_class cs c then
        match star_not cs s' k with
        | Some rest => Some rest
        | None => k s
        end
      else k s
  | EmptyString => k s
  end.

Fixpoint rmatch (r : regex) (s : string)
    (k : string -> option string) : option string :=
  match r with
  | RChar c =>
      match s with
      | String c' s' => if Ascii.eqb c c' then k s' else None
      | EmptyString => None
      end
  | RStarNot cs => star_not cs s k
  | RPlusNot cs =>
      match s with
      | String c' s' => if in_negated_class cs c' then star_not cs s' k else None
      | EmptyString => None
      end
  | RSeq r1 r2 => rmatch r1 s (fun s' => rmatch r2 s' k)
  | RAlt r1 r2 =>
      match rmatch r1 s k with
      | Some rest => Some rest
      | None => rmatch r2 s k
      end
  | RGroup r' => rmatch r' s k
  end.

(** A match of [r] that starts exactly at the head of [s]: its length. *)
Definition match_here (r : regex) (s : string) : option nat :=
  match rmatch r s Some with
  | Some rest => Some (String.length s - String.length rest)
  | None => None
  end.

(** [RegExp.prototype.exec] from the current position: the first start
    position at or after it where the pattern matches, as the number of
    characters skipped and the length of the match.  The position at the
    end of the string is tried as well. *)
Fixpoint regexp_exec (r : regex) (s : string) : option (nat * nat) :=
  match match_here r s with
  | Some n => Some (0, n)
  | None =>
      match s with
      | String _ s' =>
          match regexp_exec r s' with
          | Some (i, n) => Some (S i, n)
          | None => None
          end
      | EmptyString => None
      end
  end.

(** The loop of [String.prototype.match] for a pattern with the [g] flag:
    collect every match, resuming at the end of the previous one, one
    character further after an empty match.  [None] is the loop running out
    of [fuel]; [match_loop_total] shows that it does not happen with the
    fuel [String_match_g] gives. *)
Fixpoint match_loop (r : regex) (fuel : nat) (s : string)
    : option (list string) :=
  match fuel with
  | O => None
  | S fuel' =>
      match regexp_exec r s with
      | None => Some []
      | Some (i, n) =>
          let m := take n (drop i s) in
          let next := i + Nat.max n 1 in
          if Nat.ltb (String.length s) next then Some [m]
          else option_map (cons m) (match_loop r fuel' (drop next s))
      end
  end.

(** [s.match(r)] for a global [r]: the array of the matched substrings, or
    [null] (here [None]) when there is no match at all. *)
Definition String_match_g (r : regex) (s : string) : option (list string) :=
  match match_loop r (S (String.length s)) s with
  | Some (m :: ms) => Some (m :: ms)
  | _ => None
  end.

(** [s.replace(/c/g, "")]: every occurrence of the character removed. *)
Fixpoint remove_all (c : ascii) (s : string) : string :=
  match s with
  | EmptyString => EmptyString
  | String c' s' =>
      if Ascii.eqb c' c then remove_all c s' else String c' (remove_all c s')
  end.

(** ** Values, errors, effects *)

(** The values [arg] and [argIf] are called with ([val: any]). *)
Inductive jsval : Type :=
| VUndefined
| VNull
| VBool (b : bool)
| VNumber (z : Z)
| VString (s : string)
| VArray (l : list string).

(** JavaScript's ToBoolean, as [!val] and [if (condition)] use it. *)
Definition truthy (v : jsval) : bool :=
  match v with
  | VUndefined | VNull => false
  | VBool b => b
  | VNumber z => negb (z =? 0)%Z
  | VString s => negb (String.eqb s "")
  | VArray _ => true
  end.

Inductive js_error : Type :=
| TypeError.

Inductive result (A : Type) : Type :=
| Ok (a : A)
| Throw (e : js_error).
Arguments Ok {A} a.
Arguments Throw {A} e.

(** The writable streams a run can name. *)
Inductive stream : Type :=
| process_stdout
| process_stderr
| user_stream (id : nat).

Definition env_map : Type := list (string * string).

Inductive effect : Type :=
| DebugCall (message : string)
| Emit (event : string) (payload : string)
| Write (s : stream) (data : string)
| Spawn (path : string) (argv : list string) (cwd : string) (env : env_map)
| SpawnSync (path : string) (argv : list string) (cwd : string) (env : env_map).

(** ** The runner object *)

Module ToolRunner.
Record t : Type := mk {
  toolPath : string;
  args : list string;
  silent : bool
}.
End ToolRunner.

Record state : Type := mkState {
  this : ToolRunner.t;
  log : list effect
}.

(** [new ToolRunner(toolPath)]. *)
Definition constructor (toolPath : string) (log0 : list effect) : state :=
  {| this := ToolRunner.mk toolPath [] false;
     log := log0 ++ [DebugCall ("toolRunner toolPath: " ++ toolPath)] |}.

(** ** The monad of methods *)

Definition M (A : Type) : Type := state -> result A * state.

Definition ret {A} (a : A) : M A := fun st => (Ok a, st).

Definition bind {A B} (m : M A) (f : A -> M B) : M B :=
  fun st =>
    match m st with
    | (Ok a, st') => f a st'
    | (Throw e, st') => (Throw e, st')
    end.

Definition throw {A} (e : js_error) : M A := fun st => (Throw e, st).

Definition perform (e : effect) : M unit :=
  fun st => (Ok tt, {| this := this st; log := log st ++ [e] |}).

Definition get_this : M ToolRunner.t := fun st => (Ok (this st), st).

Definition set_args (l : list string) : M unit :=
  fun st =>
    (Ok tt,
     {| this := ToolRunner.mk (ToolRunner.toolPath (this st)) l
                              (ToolRunner.silent (this st));
        log := log st |}).

Declare Scope tool_scope.
Delimit Scope tool_scope with tool.
Notation "x <- m ;; k" := (bind m (fun x => k))
  (at level 61, m at next level, right associativity) : tool_scope.
Notation "m ;; k" := (bind m (fun _ => k))
  (at level 61, right associativity) : tool_scope.
Local Open Scope tool_scope.

(** [for each x of l: f x], in order. *)
Fixpoint for_each {A} (f : A -> M unit) (l : list A) : M unit :=
  match l with
  | [] => ret tt
  | x :: l' => f x ;; for_each f l'
  end.

(** ** The argument builder *)

(** [_debug]: the module's [debug] unless the runner is silent, then the
    ['debug'] event in any case. *)
Definition _debug (message : string) : M unit :=
  r <- get_this ;;
  (if ToolRunner.silent r then ret tt else perform (DebugCall message)) ;;
  perform (Emit "debug" message).

(** The pattern of [_argStringToArray] (line 82), with the [g] flag.  Its
    first alternative is a group of three pieces: a greedy run of characters
    other than double quote and space, a second group (a double quote, a
    greedy run of characters other than double quote, a double quote), and
    again a greedy run of characters other than double quote and space.  Its
    second alternative is a greedy, non-empty run of characters other than
    double quote and space. *)
Definition arg_pattern : regex :=
  RAlt
    (RGroup
       (RSeq (RStarNot [dquote; space])
          (RSeq (RGroup (RSeq (RChar dquote)
                           (RSeq (RStarNot [dquote]) (RChar dquote))))
             (RStarNot [dquote; space]))))
    (RPlusNot [dquote; space]).

(** [_argStringToArray]: [args.length] on the [null] of a failed match is a
    TypeError; otherwise every match with its double quotes removed. *)
Definition _argStringToArray (argString : string) : M (list string) :=
  match String_match_g arg_pattern argString with
  | None => throw TypeError
  | Some matches => ret (map (remove_all dquote) matches)
  end.

(** ** The host

    What the class takes from Node: [JSON.stringify] (on an array of
    strings), [process.cwd()], [process.env], [os.EOL], and
    [child_process.spawnSync], which answers with the collected output and
    the exit status of the finished child. *)

Inductive Error : Type :=
| mkError (message : string).

Definition message (e : Error) : string :=
  match e with mkError m => m end.

Module SpawnSyncReturns.
Record t : Type := mk {
  status : option Z;
  stdout : option string;
  stderr : option string;
  error : option Error
}.
End SpawnSyncReturns.

Module Host.
Record t : Type := mk {
  JSON_stringify : list string -> string;
  process_cwd : string;
  process_env : env_map;
  os_EOL : string;
  child_spawnSync :
    string -> list string -> string -> env_map -> SpawnSyncReturns.t
}.
End Host.

(** ** Options *)

(** [IExecOptions] as a caller passes it: every field may be left out. *)
Module IExecOptions.
Record t : Type := mk {
  cwd : option string;
  env : option env_map;
  silent : option bool;
  failOnStdErr : option bool;
  ignoreReturnCode : option bool;
  outStream : option stream;
  errStream : option stream
}.
Definition empty : t := mk None None None None None None None.
End IExecOptions.

(** The local [ops] of [exec] and [execSync]: every field filled in. *)
Module Ops.
Record t : Type := mk {
  cwd : string;
  env : env_map;
  silent : bool;
  outStream : stream;
  errStream : stream;
  failOnStdErr : bool;
  ignoreReturnCode : bool
}.
End Ops.

(** [IExecResult], what [execSync] returns. *)
Module IExecResult.
Record t : Type := mk {
  stdout : option string;
  stderr : option string;
  code : option Z;
  error : option Error
}.
End IExecResult.

Section Runner.

Variable host : Host.t.

Definition arg (val : jsval) (literal : bool) : M unit :=
  if negb (truthy val) then ret tt
  else
    match val with
    | VArray l =>
        r <- get_this ;;
        _debug (ToolRunner.toolPath r ++ " arg: " ++ Host.JSON_stringify host l) ;;
        r <- get_this ;;
        set_args (ToolRunner.args r ++ l)
    | VString s =>
        if literal then
          r <- get_this ;;
          _debug (ToolRunner.toolPath r ++ " literal arg: " ++ s) ;;
          r <- get_this ;;
          set_args (ToolRunner.args r ++ [s])
        else
          r <- get_this ;;
          _debug (ToolRunner.toolPath r ++ " arg: " ++ s) ;;
          r <- get_this ;;
          tokens <- _argStringToArray s ;;
          set_args (ToolRunner.args r ++ tokens)
    | _ => ret tt
    end.

Definition pathArg (val : string) : M unit :=
  r <- get_this ;;
  _debug (ToolRunner.toolPath r ++ " pathArg: " ++ val) ;;
  arg (VString val) true.

Definition argIf (condition : jsval) (val : jsval) : M unit :=
  if truthy condition then arg val false else ret tt.




(** ** Option defaults *)

(** [x || d] on an optional string (the empty string is falsy), an optional
    boolean and an optional object. *)
Definition or_string (x : option string) (d : string) : string :=
  match x with
  | Some s => if String.eqb s "" then d else s
  | None => d
  end.

Definition or_false (x : option bool) : bool :=
  match x with
  | Some b => b
  | None => false
  end.

Definition or_default {A} (x : option A) (d : A) : A :=
  match x with
  | Some a => a
  | None => d
  end.

(** [options = options || {}] and the record [ops] built from it. *)
Definition resolve_options (options : option IExecOptions.t) : Ops.t :=
  let options := or_default options IExecOptions.empty in
  {| Ops.cwd := or_string (IExecOptions.cwd options) (Host.process_cwd host);
     Ops.env := or_default (IExecOptions.env options) (Host.process_env host);
     Ops.silent := or_false (IExecOptions.silent options);
     Ops.outStream := or_default (IExecOptions.outStream options) process_stdout;
     Ops.errStream := or_default (IExecOptions.errStream options) process_stderr;
     Ops.failOnStdErr := or_false (IExecOptions.failOnStdErr options);
     Ops.ignoreReturnCode := or_false (IExecOptions.ignoreReturnCode options) |}.

(** The part [exec] and [execSync] have in common, up to the spawn: the
    debug lines, [ops], and the echo of the command line. *)
Definition announce (options : option IExecOptions.t) : M Ops.t :=
  r <- get_this ;;
  _debug ("exec tool: " ++ ToolRunner.toolPath r) ;;
  _debug "Arguments:" ;;
  r <- get_this ;;
  for_each (fun a => _debug ("   " ++ a)) (ToolRunner.args r) ;;
  let ops := resolve_options options in
  r <- get_this ;;
  let argString := join " " (ToolRunner.args r) in
  let cmdString :=
    (if String.eqb argString "" then ToolRunner.toolPath r
     else ToolRunner.toolPath r ++ (" " ++ argString))%string in
  (if Ops.silent ops then ret tt
   else perform (Write (Ops.outStream ops)
                   ("[command]" ++ cmdString ++ Host.os_EOL host))) ;;
  ret ops.

(** ** The streaming invoker *)

(** An exit code as it prints in a message: a number in decimal, or
    [null] when the child was ended by a signal. *)
Definition string_of_code (code : option Z) : string :=
  match code with
  | Some z => NilZero.string_of_int (Z.to_int z)
  | None => "null"
  end.

Definition string_of_bool (b : bool) : string :=
  if b then "true" else "false".

(** [code != 0]. *)
Definition code_nonzero (code : option Z) : bool :=
  match code with
  | Some z => negb (z =? 0)%Z
  | None => true
  end.

(** The deferred of [Q.defer()]: settled at most once, later calls of
    [resolve] and [reject] change nothing. *)
Inductive promise : Type :=
| Pending
| Resolved (code : option Z)
| Rejected (e : Error).

Definition resolve (p : promise) (code : option Z) : promise :=
  match p with
  | Pending => Resolved code
  | _ => p
  end.

Definition reject (p : promise) (e : Error) : promise :=
  match p with
  | Pending => Rejected e
  | _ => p
  end.

(** What the handlers of one [exec] call share: the local [success] and
    the deferred. *)
Record ExecState : Type := mkExec {
  success : bool;
  defer : promise
}.

(** [exec] up to its [return]: the common part, the spawn, and the closure
    state the handlers start from. *)
Definition exec (options : option IExecOptions.t) : M (Ops.t * ExecState) :=
  ops <- announce options ;;
  r <- get_this ;;
  perform (Spawn (ToolRunner.toolPath r) (ToolRunner.args r)
             (Ops.cwd ops) (Ops.env ops)) ;;
  ret (ops, {| success := true; defer := Pending |}).

(** [cp.stdout.on('data', ...)]. *)
Definition on_stdout_data (ops : Ops.t) (data : string) (x : ExecState)
    : M ExecState :=
  perform (Emit "stdout" data) ;;
  (if Ops.silent ops then ret tt
   else perform (Write (Ops.outStream ops) data)) ;;
  ret x.

(** [cp.stderr.on('data', ...)]. *)
Definition on_stderr_data (ops : Ops.t) (data : string) (x : ExecState)
    : M ExecState :=
  perform (Emit "stderr" data) ;;
  let x := {| success := negb (Ops.failOnStdErr ops); defer := defer x |} in
  (if Ops.silent ops then ret tt
   else
     let s := if Ops.failOnStdErr ops then Ops.errStream ops
              else Ops.outStream ops in
     perform (Write s data)) ;;
  ret x.

(** [cp.on('error', ...)]. *)
Definition on_error (ops : Ops.t) (err : Error) (x : ExecState)
    : M ExecState :=
  r <- get_this ;;
  ret {| success := success x;
         defer := reject (defer x)
                    (mkError (ToolRunner.toolPath r ++ " failed. "
                              ++ message err)) |}.

(** [cp.on('exit', ...)]. *)
Definition on_exit (ops : Ops.t) (code : option Z) (signal : option string)
    (x : ExecState) : M ExecState :=
  _debug ("rc:" ++ string_of_code code) ;;
  let success' :=
    if code_nonzero code && negb (Ops.ignoreReturnCode ops) then false
    else success x in
  _debug ("success:" ++ string_of_bool success') ;;
  r <- get_this ;;
  ret {| success := success';
         defer :=
           if success' then resolve (defer x) code
           else reject (defer x)
                  (mkError (ToolRunner.toolPath r
                            ++ " failed with return code: "
                            ++ string_of_code code)) |}.

(** What the child process sends: output chunks while it runs, then either
    its exit or, when it could not be launched, an error. *)
Inductive chunk : Type :=
| StdoutData (data : string)
| StderrData (data : string).

Inductive child_event : Type :=
| Data (c : chunk)
| ErrorEvent (err : Error)
| ExitEvent (code : option Z) (signal : option string).

Definition on_chunk (ops : Ops.t) (c : chunk) (x : ExecState) : M ExecState :=
  match c with
  | StdoutData d => on_stdout_data ops d x
  | StderrData d => on_stderr_data ops d x
  end.

Definition deliver (ops : Ops.t) (ev : child_event) (x : ExecState)
    : M ExecState :=
  match ev with
  | Data c => on_chunk ops c x
  | ErrorEvent err => on_error ops err x
  | ExitEvent code signal => on_exit ops code signal x
  end.

Fixpoint deliver_all (ops : Ops.t) (evs : list child_event) (x : ExecState)
    : M ExecState :=
  match evs with
  | [] => ret x
  | ev :: evs' => x' <- deliver ops ev x ;; deliver_all ops evs' x'
  end.

(** One streaming invocation: [exec], then the events of the child in the
    order they arrive. *)
Definition streaming (options : option IExecOptions.t)
    (evs : list child_event) : M ExecState :=
  p <- exec options ;;
  deliver_all (fst p) evs (snd p).

(** ** The blocking invoker *)

(** [b && b.length > 0] on a collected buffer. *)
Definition non_empty (b : option string) : bool :=
  match b with
  | Some s => Nat.ltb 0 (String.length s)
  | None => false
  end.

(** The answer of [child.spawnSync] for this runner and these options. *)
Definition spawn_report (r : ToolRunner.t) (ops : Ops.t)
    : SpawnSyncReturns.t :=
  Host.child_spawnSync host (ToolRunner.toolPath r) (ToolRunner.args r)
    (Ops.cwd ops) (Ops.env ops).

(** [execSync]; its [defer] and [success] locals are never used. *)
Definition execSync (options : option IExecOptions.t) : M IExecResult.t :=
  ops <- announce options ;;
  self <- get_this ;;
  perform (SpawnSync (ToolRunner.toolPath self) (ToolRunner.args self)
             (Ops.cwd ops) (Ops.env ops)) ;;
  let r := spawn_report self ops in
  (if non_empty (SpawnSyncReturns.stdout r)
   then perform (Write (Ops.outStream ops)
                   (or_default (SpawnSyncReturns.stdout r) ""))
   else ret tt) ;;
  (if non_empty (SpawnSyncReturns.stderr r)
   then perform (Write (Ops.errStream ops)
                   (or_default (SpawnSyncReturns.stderr r) ""))
   else ret tt) ;;
  ret {| IExecResult.code := SpawnSyncReturns.status r;
         IExecResult.stdout := SpawnSyncReturns.stdout r;
         IExecResult.stderr := SpawnSyncReturns.stderr r;
         IExecResult.error := SpawnSyncReturns.error r |}.

End Runner.

(** ** Inputs used in the examples *)

Definition newline : string := String "010"%char EmptyString.

Definition json_of_strings (l : list string) : string :=
  "[" ++ join "," (map (fun x => (q ++ x ++ q)%string) l) ++ "]".

(** A host whose child prints [hello] and [oops] and exits with 0. *)
Definition talkative_host : Host.t :=
  Host.mk json_of_strings "/work" [("PATH", "/bin")] newline
    (fun _ _ _ _ =>
       SpawnSyncReturns.mk (Some 0%Z) (Some "hello") (Some "oops") None).

(** A host whose child prints [hello], nothing on standard error, and
    exits with the given status. *)
Definition plain_host (status : Z) : Host.t :=
  Host.mk json_of_strings "/work" [("PATH", "/bin")] newline
    (fun _ _ _ _ =>
       SpawnSyncReturns.mk (Some status) (Some "hello") (Some "") None).

(** A host on which the tool cannot be launched. *)
Definition failing_host : Host.t :=
  Host.mk json_of_strings "/work" [("PATH", "/bin")] newline
    (fun path _ _ _ =>
       SpawnSyncReturns.mk None None None
         (Some (mkError ("spawnSync " ++ path ++ " ENOENT")))).

Definition echo_runner : state := constructor "/bin/echo" [].

Definition silent_options : option IExecOptions.t :=
  Some (IExecOptions.mk None None (Some true) None None None None).

Definition strict_options : option IExecOptions.t :=
  Some (IExecOptions.mk None None None (Some true) None None None).

(** The line with arg one between double quotes, then two and -z. *)
Definition quoted_input : string := q ++ "arg one" ++ q ++ " two -z".

(** The word made of a, a quoted b and c, with no space. *)
Definition glued_input : string := "a" ++ q ++ "b" ++ q ++ "c".

(** ** Vocabulary of the statements *)

(** [n] spaces. *)
Fixpoint spaces (n : nat) : string :=
  match n with
  | O => EmptyString
  | S n' => String space (spaces n')
  end.

(** [c] occurs in [s]. *)
Fixpoint occurs (c : ascii) (s : string) : bool :=
  match s with
  | EmptyString => false
  | String c' s' => Ascii.eqb c' c || occurs c s'
  end.

(** [s] has a character that is neither a double quote nor a space. *)
Fixpoint has_plain_char (s : string) : bool :=
  match s with
  | EmptyString => false
  | String c s' => in_negated_class [dquote; space] c || has_plain_char s'
  end.

Definition is_stderr (c : chunk) : bool :=
  match c with
  | StderrData _ => true
  | StdoutData _ => false
  end.

Definition is_write (e : effect) : bool :=
  match e with
  | Write _ _ => true
  | _ => false
  end.

(** [options] with its [failOnStdErr] replaced. *)
Definition with_failOnStdErr (b : option bool)
    (options : option IExecOptions.t) : option IExecOptions.t :=
  let o := or_default options IExecOptions.empty in
  Some (IExecOptions.mk (IExecOptions.cwd o) (IExecOptions.env o)
          (IExecOptions.silent o) b (IExecOptions.ignoreReturnCode o)
          (IExecOptions.outStream o) (IExecOptions.errStream o)).

(** [m] returns [a] from [st], leaves the runner as it is and appends
    [out] to the log. *)
Definition runs_to {A} (m : M A) (st : state) (a : A) (out : list effect)
    : Prop :=
  m st = (Ok a, {| this := this st; log := log st ++ out |}).

(** What one [_debug] call logs on runner [r]. *)
Definition debug_effects (r : ToolRunner.t) (msg : string) : list effect :=
  (if ToolRunner.silent r then [] else [DebugCall msg])
  ++ [Emit "debug" msg].

(** What [announce] logs on runner [r]. *)
Definition announce_effects (host : Host.t) (options : option IExecOptions.t)
    (r : ToolRunner.t) : list effect :=
  let ops := resolve_options host options in
  debug_effects r ("exec tool: " ++ ToolRunner.toolPath r)
  ++ debug_effects r "Arguments:"
  ++ flat_map (fun a => debug_effects r ("   " ++ a)) (ToolRunner.args r)
  ++ (if Ops.silent ops then []
      else [Write (Ops.outStream ops)
              ("[command]"
               ++ (if String.eqb (join " " (ToolRunner.args r)) ""
                   then ToolRunner.toolPath r
                   else ToolRunner.toolPath r
                        ++ " " ++ join " " (ToolRunner.args r))
               ++ Host.os_EOL host)]).

(** What [exec] logs before the first event. *)
Definition exec_effects (host : Host.t) (options : option IExecOptions.t)
    (st : state) : list effect :=
  let ops := resolve_options host options in
  announce_effects host options (this st)
  ++ [Spawn (ToolRunner.toolPath (this st)) (ToolRunner.args (this st))
        (Ops.cwd ops) (Ops.env ops)].

(** What the handler of a chunk logs: the event, then, unless [silent], the
    chunk on [outStream], or on [errStream] for a chunk of standard error
    under [failOnStdErr]. *)
Definition chunk_effects (ops : Ops.t) (c : chunk) : list effect :=
  match c with
  | StdoutData d =>
      Emit "stdout" d
      :: (if Ops.silent ops then [] else [Write (Ops.outStream ops) d])
  | StderrData d =>
      Emit "stderr" d
      :: (if Ops.silent ops then []
          else [Write (if Ops.failOnStdErr ops then Ops.errStream ops
                       else Ops.outStream ops) d])
  end.

(** What the exit handler logs. *)
Definition exit_effects (r : ToolRunner.t) (code : option Z) (flag : bool)
    : list effect :=
  debug_effects r ("rc:" ++ string_of_code code)
  ++ debug_effects r ("success:" ++ string_of_bool flag).

(** The flag the exit handler computes from the flag it finds. *)
Definition exit_flag (ops : Ops.t) (code : option Z) (flag : bool) : bool :=
  flag && negb (code_nonzero code && negb (Ops.ignoreReturnCode ops)).

(** The flag after the chunks [cs], from the flag before them. *)
Definition flag_after (ops : Ops.t) (cs : list chunk) (flag : bool) : bool :=
  if existsb is_stderr cs then negb (Ops.failOnStdErr ops) else flag.

(** What [execSync] logs once the child has ended. *)
Definition collected_output_effects (host : Host.t)
    (options : option IExecOptions.t) (st : state) : list effect :=
  let ops := resolve_options host options in
  let r := spawn_report host (this st) ops in
  (if non_empty (SpawnSyncReturns.stdout r)
   then [Write (Ops.outStream ops) (or_default (SpawnSyncReturns.stdout r) "")]
   else [])
  ++ (if non_empty (SpawnSyncReturns.stderr r)
      then [Write (Ops.errStream ops)
              (or_default (SpawnSyncReturns.stderr r) "")]
      else []).

(** ** Vocabulary of the further properties *)

(** Every character of [s] satisfies [p]. *)
Fixpoint all_chars (p : ascii -> bool) (s : string) : bool :=
  match s with
  | EmptyString => true
  | String c s' => p c && all_chars p s'
  end.

(** The number of occurrences of [c] in [s]. *)
Fixpoint count_char (c : ascii) (s : string) : nat :=
  match s with
  | EmptyString => 0
  | String c' s' => (if Ascii.eqb c' c then 1 else 0) + count_char c s'
  end.

(** A non-empty word without double quote and without space. *)
Definition plain_word (w : string) : bool :=
  negb (String.eqb w "") && all_chars (in_negated_class [dquote; space]) w.

(** The inputs on which the pattern of [_argStringToArray] matches nowhere:
    not empty, made of spaces and at most one double quote. *)
Definition blank_line (s : string) : bool :=
  negb (String.eqb s "") && negb (has_plain_char s)
  && Nat.ltb (count_char dquote s) 2.

(** How a caller writes one argument on a command line: as it is when it
    is a plain word, between double quotes otherwise. *)
Definition write_arg (a : string) : string :=
  if plain_word a then a else q ++ a ++ q.

Definition is_debug_call (e : effect) : bool :=
  match e with
  | DebugCall _ => true
  | _ => false
  end.

(** The event the handler of a chunk emits. *)
Definition chunk_event (c : chunk) : effect :=
  match c with
  | StdoutData d => Emit "stdout" d
  | StderrData d => Emit "stderr" d
  end.

(** [options] with its two policy flags replaced. *)
Definition with_policy (fail ignore : option bool)
    (options : option IExecOptions.t) : option IExecOptions.t :=
  let o := or_default options IExecOptions.empty in
  Some (IExecOptions.mk (IExecOptions.cwd o) (IExecOptions.env o)
          (IExecOptions.silent o) fail ignore
          (IExecOptions.outStream o) (IExecOptions.errStream o)).

(** The command line as [exec] and [execSync] echo it. *)
Definition command_line (r : ToolRunner.t) : string :=
  if String.eqb (join " " (ToolRunner.args r)) "" then ToolRunner.toolPath r
  else ToolRunner.toolPath r ++ " " ++ join " " (ToolRunner.args r).

(** [tl] is where a token ends: the end of the line, or a space. *)
Definition token_end (tl : string) : bool :=
  match tl with
  | EmptyString => true
  | String c _ => Ascii.eqb c space
  end.

(** [seg] is matched whole, as one match, wherever a token end follows. *)
Definition one_match (seg : string) : Prop :=
  1 <= String.length seg
  /\ forall tl, token_end tl = true ->
       match_here arg_pattern (seg ++ tl) = Some (String.length seg).

(** [e] is a debug line: a call of the module's [debug] or a ['debug']
    event. *)
Definition is_debug_effect (e : effect) : bool :=
  match e with
  | DebugCall _ => true
  | Emit event _ => String.eqb event "debug"
  | _ => false
  end.


(** The words of a line: its maximal runs of characters other than the
    space, read from the right.  [words_aux] gives the word that reaches
    the head of the line (empty when the line starts with a space) and the
    words after it. *)
Definition cons_word (w : string) (ws : list string) : list string :=
  if String.eqb w "" then ws else w :: ws.

Fixpoint words_aux (s : string) : string * list string :=
  match s with
  | EmptyString => (EmptyString, [])
  | String c s' =>
      let (w, ws) := words_aux s' in
      if Ascii.eqb c space then (EmptyString, cons_word w ws)
      else (String c w, ws)
  end.

Definition words (s : string) : list string :=
  let (w, ws) := words_aux s in cons_word w ws.

(** [t] between double quotes. *)
Definition quoted (t : string) : string := q ++ t ++ q.

(** Strings written one after the other, with nothing between them. *)
Fixpoint glue (l : list string) : string :=
  match l with
  | [] => EmptyString
  | x :: l' => x ++ glue l'
  end.

(** * Properties *)

(** ** The matching loop ends *)

Lemma length_drop (n : nat) (s : string) :
  String.length (drop n s) = String.length s - n.
Proof.
  revert s; induction n as [|n IH]; intros [|c s]; simpl; auto.
Qed.

Lemma match_loop_total (r : regex) (fuel : nat) :
  forall s, String.length s < fuel ->
  exists l, match_loop r fuel s = Some l.
Proof.
  induction fuel as [|fuel IH]; intros s Hlen; [lia|].
  simpl. destruct (regexp_exec r s) as [[i n]|]; [|eauto].
  destruct (Nat.ltb_spec (String.length s) (i + Nat.max n 1)); [eauto|].
  destruct (IH (drop (i + Nat.max n 1) s)) as [l Hl].
  - rewrite length_drop. lia.
  - rewrite Hl. simpl. eauto.
Qed.

(** With a match to report, the loop reports at least one. *)
Lemma match_loop_found (r : regex) (fuel : nat) (s : string) i n :
  String.length s < fuel ->
  regexp_exec r s = Some (i, n) ->
  exists m ms, match_loop r fuel s = Some (m :: ms).
Proof.
  intros Hlen Hex. destruct fuel as [|fuel]; [lia|].
  simpl. rewrite Hex.
  destruct (Nat.ltb_spec (String.length s) (i + Nat.max n 1)); [eauto|].
  destruct (match_loop_total r fuel (drop (i + Nat.max n 1) s)) as [l Hl].
  - rewrite length_drop. lia.
  - rewrite Hl. simpl. eauto.
Qed.

Lemma String_match_g_null (r : regex) (s : string) :
  regexp_exec r s = None -> String_match_g r s = None.
Proof.
  intros H. unfold String_match_g. simpl. rewrite H. reflexivity.
Qed.

Lemma String_match_g_some (r : regex) (s : string) i n :
  regexp_exec r s = Some (i, n) ->
  exists m ms, String_match_g r s = Some (m :: ms).
Proof.
  intros H. unfold String_match_g.
  destruct (match_loop_found r (S (String.length s)) s i n) as (m & ms & E);
    [lia | assumption |].
  rewrite E. eauto.
Qed.

(** ** Running a method *)

Ltac unfold_m :=
  unfold _debug; unfold bind, ret, throw, perform, get_this, set_args.

(** [_debug] returns, leaves the runner alone and logs after what is there. *)
Lemma _debug_run (msg : string) (st : state) :
  _debug msg st =
  (Ok tt,
   {| this := this st;
      log := log st
             ++ (if ToolRunner.silent (this st) then [] else [DebugCall msg])
             ++ [Emit "debug" msg] |}).
Proof.
  unfold_m. destruct st as [r lg]; simpl.
  destruct (ToolRunner.silent r); simpl; rewrite <- ?app_assoc; reflexivity.
Qed.

Lemma bind_run {A B} (m : M A) (f : A -> M B) st a st' :
  m st = (Ok a, st') -> bind m f st = f a st'.
Proof. intros H. unfold bind. rewrite H. reflexivity. Qed.

(** ** The tokenizer *)

Lemma match_here_space (s : string) :
  match_here arg_pattern (String space s) = None.
Proof. reflexivity. Qed.

Lemma regexp_exec_spaces (n : nat) :
  regexp_exec arg_pattern (spaces n) = None.
Proof.
  induction n as [|n IH]; [reflexivity|].
  cbn [spaces regexp_exec]. rewrite match_here_space, IH. reflexivity.
Qed.

(** [arg] in its tokenizing branch. *)
Lemma arg_string_run (host : Host.t) (s : string) (st : state) :
  s <> "" ->
  arg host (VString s) false st =
  bind (_argStringToArray s)
    (fun tokens => set_args (ToolRunner.args (this st) ++ tokens))
    {| this := this st;
       log := log st
              ++ (if ToolRunner.silent (this st) then []
                  else [DebugCall (ToolRunner.toolPath (this st)
                                   ++ " arg: " ++ s)])
              ++ [Emit "debug" (ToolRunner.toolPath (this st)
                                ++ " arg: " ++ s)] |}.
Proof.
  intros Hs. unfold arg, truthy.
  destruct (String.eqb_spec s ""); [contradiction|]. cbn [negb].
  unfold bind at 1. unfold get_this at 1.
  unfold bind at 1. rewrite _debug_run.
  unfold bind at 1. unfold get_this at 1. reflexivity.
Qed.

(** C1, at the inputs where it fails: on a string of one or more spaces,
    and on a string that is a single double quote, the pattern matches
    nowhere, [match] answers [null], and [arg] throws a TypeError instead of
    returning a list of tokens. *)
Theorem arg_throws_on_blank_input (host : Host.t) (st : state) (n : nat) :
  fst (arg host (VString (spaces (S n))) false st) = Throw TypeError
  /\ fst (arg host (VString q) false st) = Throw TypeError.
Proof.
  split.
  - rewrite arg_string_run by (simpl; discriminate).
    unfold bind, _argStringToArray.
    rewrite String_match_g_null by apply regexp_exec_spaces.
    reflexivity.
  - rewrite arg_string_run by discriminate.
    reflexivity.
Qed.

(** Where the tokenizer does return: on every string that has a character
    other than double quote and space, the pattern matches at that
    character at the latest. *)
Lemma star_not_end (cs : list ascii) (s : string) :
  exists rest, star_not cs s Some = Some rest.
Proof.
  induction s as [|c s [rest IH]]; simpl; [eauto|].
  destruct (in_negated_class cs c); [rewrite IH|]; eauto.
Qed.

Lemma match_here_plain_char (c : ascii) (s : string) :
  in_negated_class [dquote; space] c = true ->
  exists n, match_here arg_pattern (String c s) = Some n.
Proof.
  intros Hc. unfold match_here, arg_pattern.
  cbn [rmatch]. rewrite Hc.
  destruct (star_not [dquote; space] (String c s) _) as [rest|]; [eauto|].
  destruct (star_not_end [dquote; space] s) as [rest ->]. eauto.
Qed.

Lemma regexp_exec_plain_char (s : string) :
  has_plain_char s = true ->
  exists i n, regexp_exec arg_pattern s = Some (i, n).
Proof.
  induction s as [|c s IH]; simpl; [discriminate|].
  intros H. apply orb_true_iff in H. destruct H as [Hc|Hs].
  - destruct (match_here_plain_char c s Hc) as [n ->]. eauto.
  - destruct (match_here arg_pattern (String c s)); [eauto|].
    destruct (IH Hs) as (i & n & ->). eauto.
Qed.

Lemma arg_returns_on_plain_char (host : Host.t) (s : string) (st : state) :
  has_plain_char s = true ->
  exists st', arg host (VString s) false st = (Ok tt, st').
Proof.
  intros H.
  assert (Hs : s <> "") by (intros ->; discriminate).
  rewrite arg_string_run by assumption.
  destruct (regexp_exec_plain_char s H) as (i & n & E).
  destruct (String_match_g_some _ _ _ _ E) as (m & ms & Em).
  unfold bind, _argStringToArray. rewrite Em. unfold ret, set_args. eauto.
Qed.

(** C6: [arg] on the line [quoted_input] (arg one between double quotes,
    then two and -z) appends exactly the three tokens [arg one], [two] and
    [-z]; on [glued_input] (a, a quoted b, c, with no space) it appends
    exactly [abc]; on the empty string and on an absent value it changes
    nothing: no token is appended, not even an empty one, and nothing is
    logged. *)
Theorem arg_tokenizes_examples (host : Host.t) (st : state) :
  (fst (arg host (VString quoted_input) false st) = Ok tt
   /\ ToolRunner.args (this (snd (arg host (VString quoted_input) false st)))
      = ToolRunner.args (this st) ++ ["arg one"; "two"; "-z"])
  /\ (fst (arg host (VString glued_input) false st) = Ok tt
      /\ ToolRunner.args (this (snd (arg host (VString glued_input) false st)))
         = ToolRunner.args (this st) ++ ["abc"])
  /\ (forall literal, arg host (VString "") literal st = (Ok tt, st))
  /\ (forall literal, arg host VUndefined literal st = (Ok tt, st))
  /\ (forall literal, arg host VNull literal st = (Ok tt, st)).
Proof.
  repeat split; try (rewrite arg_string_run by discriminate); reflexivity.
Qed.

Lemma occurs_remove_all (c : ascii) (s : string) :
  occurs c (remove_all c s) = false.
Proof.
  induction s as [|c' s IH]; simpl; [reflexivity|].
  destruct (Ascii.eqb c' c) eqn:E; [assumption|].
  simpl. rewrite E. assumption.
Qed.

Lemma _argStringToArray_no_quote (s : string) (st st' : state) tokens :
  _argStringToArray s st = (Ok tokens, st') ->
  st' = st /\ Forall (fun t => occurs dquote t = false) tokens.
Proof.
  unfold _argStringToArray.
  destruct (String_match_g arg_pattern s) as [matches|]; [|discriminate].
  unfold ret. intros H. injection H as <- <-. split; [reflexivity|].
  apply Forall_forall. intros t Ht.
  apply in_map_iff in Ht. destruct Ht as (m & <- & _).
  apply occurs_remove_all.
Qed.

(** C7: whenever [arg] returns on a string given as a command line, what it
    has appended to [args] are tokens in which no double quote occurs. *)
Theorem tokens_have_no_quote (host : Host.t) (s : string) (st st' : state) :
  arg host (VString s) false st = (Ok tt, st') ->
  exists tokens,
    ToolRunner.args (this st') = ToolRunner.args (this st) ++ tokens
    /\ Forall (fun t => occurs dquote t = false) tokens.
Proof.
  destruct (String.eqb_spec s "") as [->|Hs].
  - intros H. injection H as <-. exists []. rewrite app_nil_r. auto.
  - rewrite arg_string_run by assumption. unfold bind.
    destruct (_argStringToArray s _) as [[tokens|e] st1] eqn:E;
      [|discriminate].
    apply _argStringToArray_no_quote in E. destruct E as [-> Hq].
    unfold set_args. intros H. injection H as <-.
    exists tokens. simpl. auto.
Qed.

Lemma tokens_have_no_quote_witness :
  exists tokens,
    ToolRunner.args
      (this (snd (arg talkative_host (VString glued_input) false echo_runner)))
    = ToolRunner.args (this echo_runner) ++ tokens
    /\ Forall (fun t => occurs dquote t = false) tokens.
Proof.
  apply (tokens_have_no_quote talkative_host glued_input echo_runner).
  reflexivity.
Defined.

(** ** Methods that return *)

Lemma runs_ret {A} (a : A) st : runs_to (ret a) st a [].
Proof.
  unfold runs_to, ret. destruct st; simpl. rewrite app_nil_r. reflexivity.
Qed.

Lemma runs_bind {A B} (m : M A) (f : A -> M B) st a o1 b o2 :
  runs_to m st a o1 ->
  runs_to (f a) {| this := this st; log := log st ++ o1 |} b o2 ->
  runs_to (bind m f) st b (o1 ++ o2).
Proof.
  unfold runs_to. intros H1 H2. unfold bind. rewrite H1, H2. simpl.
  rewrite app_assoc. reflexivity.
Qed.

Lemma runs_perform (e : effect) st : runs_to (perform e) st tt [e].
Proof. reflexivity. Qed.

Lemma runs_get_this st : runs_to get_this st (this st) [].
Proof.
  unfold runs_to, get_this. destruct st; simpl. rewrite app_nil_r.
  reflexivity.
Qed.

Lemma runs_debug (msg : string) st :
  runs_to (_debug msg) st tt (debug_effects (this st) msg).
Proof. unfold runs_to. rewrite _debug_run. reflexivity. Qed.

Lemma runs_weaken {A} (m : M A) st a o o' :
  runs_to m st a o -> o = o' -> runs_to m st a o'.
Proof. intros H <-. exact H. Qed.

Lemma runs_weaken2 {A} (m : M A) st a a' o o' :
  runs_to m st a o -> a = a' -> o = o' -> runs_to m st a' o'.
Proof. intros H <- <-. exact H. Qed.

Ltac log_eq := simpl; rewrite ?app_nil_r; reflexivity.

Lemma runs_unless (b : bool) (e : effect) st :
  runs_to (if b then ret tt else perform e) st tt (if b then [] else [e]).
Proof. destruct b; [apply runs_ret | apply runs_perform]. Qed.

Lemma runs_when (b : bool) (e : effect) st :
  runs_to (if b then perform e else ret tt) st tt (if b then [e] else []).
Proof. destruct b; [apply runs_perform | apply runs_ret]. Qed.

Ltac run_step :=
  first
    [ apply runs_ret
    | apply runs_perform
    | apply runs_get_this
    | apply runs_debug
    | apply runs_unless
    | apply runs_when
    | eapply runs_bind ].

Lemma runs_for_each_debug (l : list string) st :
  runs_to (for_each (fun a => _debug ("   " ++ a)) l) st tt
    (flat_map (fun a => debug_effects (this st) ("   " ++ a)) l).
Proof.
  revert st. induction l as [|a l IH]; intros st; simpl.
  - apply runs_ret.
  - eapply runs_bind; [apply runs_debug|].
    apply (IH (mkState (this st) _)).
Qed.

Section Running.

Variable host : Host.t.
Variable options : option IExecOptions.t.

Let ops : Ops.t := resolve_options host options.

Lemma runs_announce st :
  runs_to (announce host options) st ops
    (announce_effects host options (this st)).
Proof.
  eapply runs_weaken.
  - unfold announce.
    do 4 (eapply runs_bind; [run_step|]).
    eapply runs_bind; [apply runs_for_each_debug|].
    repeat run_step.
  - simpl. rewrite !app_nil_r. reflexivity.
Qed.

Lemma runs_exec st :
  runs_to (exec host options) st
    (ops, {| success := true; defer := Pending |})
    (announce_effects host options (this st)
     ++ [Spawn (ToolRunner.toolPath (this st)) (ToolRunner.args (this st))
           (Ops.cwd ops) (Ops.env ops)]).
Proof.
  eapply runs_weaken.
  - unfold exec. eapply runs_bind; [apply runs_announce|]. repeat run_step.
  - simpl. reflexivity.
Qed.

End Running.

(** ** The streaming handlers *)

Lemma runs_on_stdout_data ops d x st :
  runs_to (on_stdout_data ops d x) st x (chunk_effects ops (StdoutData d)).
Proof.
  eapply runs_weaken; [unfold on_stdout_data; repeat run_step|log_eq].
Qed.

Lemma runs_on_stderr_data ops d x st :
  runs_to (on_stderr_data ops d x) st
    {| success := negb (Ops.failOnStdErr ops); defer := defer x |}
    (chunk_effects ops (StderrData d)).
Proof.
  eapply runs_weaken; [unfold on_stderr_data; repeat run_step|].
  simpl. rewrite app_nil_r. reflexivity.
Qed.

Lemma runs_on_error ops err x st :
  runs_to (on_error ops err x) st
    {| success := success x;
       defer := reject (defer x)
                  (mkError (ToolRunner.toolPath (this st) ++ " failed. "
                            ++ message err)) |}
    [].
Proof.
  eapply runs_weaken; [unfold on_error; repeat run_step|log_eq].
Qed.

Lemma runs_on_exit ops code signal x st :
  runs_to (on_exit ops code signal x) st
    {| success := exit_flag ops code (success x);
       defer :=
         if exit_flag ops code (success x) then resolve (defer x) code
         else reject (defer x)
                (mkError (ToolRunner.toolPath (this st)
                          ++ " failed with return code: "
                          ++ string_of_code code)) |}
    (exit_effects (this st) code (exit_flag ops code (success x))).
Proof.
  assert (E : (if code_nonzero code && negb (Ops.ignoreReturnCode ops)
               then false else success x)
              = exit_flag ops code (success x)).
  { unfold exit_flag.
    destruct (code_nonzero code && negb (Ops.ignoreReturnCode ops));
      simpl; [rewrite andb_false_r | rewrite andb_true_r]; reflexivity. }
  eapply runs_weaken.
  - unfold on_exit. rewrite E. repeat run_step.
  - unfold exit_effects. simpl. rewrite !app_nil_r. reflexivity.
Qed.

Lemma runs_on_chunk ops c x st :
  runs_to (on_chunk ops c x) st
    {| success := flag_after ops [c] (success x); defer := defer x |}
    (chunk_effects ops c).
Proof.
  destruct c as [d|d]; unfold on_chunk, flag_after; simpl.
  - destruct x. apply runs_on_stdout_data.
  - apply runs_on_stderr_data.
Qed.

Lemma flag_after_cons ops c cs flag :
  flag_after ops (c :: cs) flag = flag_after ops cs (flag_after ops [c] flag).
Proof.
  unfold flag_after. simpl.
  destruct (is_stderr c), (existsb is_stderr cs); reflexivity.
Qed.

Lemma runs_chunks ops (cs : list chunk) :
  forall x st,
    runs_to (deliver_all ops (map Data cs) x) st
      {| success := flag_after ops cs (success x); defer := defer x |}
      (flat_map (chunk_effects ops) cs).
Proof.
  induction cs as [|c cs IH]; intros x st.
  - destruct x. apply runs_ret.
  - cbn [map deliver_all deliver flat_map].
    eapply runs_bind; [apply runs_on_chunk|].
    eapply runs_weaken2; [apply (IH _ (mkState (this st) _))| |reflexivity].
    simpl. rewrite <- flag_after_cons. reflexivity.
Qed.

Lemma deliver_all_app ops (evs1 evs2 : list child_event) :
  forall x st,
    deliver_all ops (evs1 ++ evs2) x st
    = bind (deliver_all ops evs1 x) (deliver_all ops evs2) st.
Proof.
  induction evs1 as [|ev evs1 IH]; intros x st; simpl; [reflexivity|].
  unfold bind at 1 2 3.
  destruct (deliver ops ev x st) as [[x'|e] st']; [|reflexivity].
  rewrite IH. reflexivity.
Qed.

(** A settled deferred stays as it is, whatever arrives afterwards. *)
Lemma settled_resolve p code : p <> Pending -> resolve p code = p.
Proof. destruct p; [contradiction | reflexivity | reflexivity]. Qed.

Lemma settled_reject p e : p <> Pending -> reject p e = p.
Proof. destruct p; [contradiction | reflexivity | reflexivity]. Qed.

Lemma runs_deliver_settled ops (ev : child_event) x st :
  defer x <> Pending ->
  exists x' out, runs_to (deliver ops ev x) st x' out /\ defer x' = defer x.
Proof.
  intros Hp. destruct ev as [c|err|code signal]; simpl.
  - eexists _, _. split; [apply runs_on_chunk | reflexivity].
  - eexists _, _. split; [apply runs_on_error|].
    simpl. apply settled_reject, Hp.
  - eexists _, _. split; [apply runs_on_exit|].
    simpl. destruct (exit_flag _ _ _);
      [apply settled_resolve | apply settled_reject]; exact Hp.
Qed.

Lemma runs_deliver_all_settled ops (evs : list child_event) :
  forall x st,
    defer x <> Pending ->
    exists x' out,
      runs_to (deliver_all ops evs x) st x' out /\ defer x' = defer x.
Proof.
  induction evs as [|ev evs IH]; intros x st Hp.
  - exists x, []. split; [apply runs_ret | reflexivity].
  - destruct (runs_deliver_settled ops ev x st Hp) as (x1 & o1 & R1 & E1).
    destruct (IH x1 (mkState (this st) (log st ++ o1))) as (x2 & o2 & R2 & E2).
    { rewrite E1. exact Hp. }
    exists x2, (o1 ++ o2). split; [|congruence].
    cbn [deliver_all]. eapply runs_bind; eassumption.
Qed.

Section StreamingRuns.

Variable host : Host.t.
Variable options : option IExecOptions.t.
Variable st : state.

Let ops : Ops.t := resolve_options host options.
Let self : ToolRunner.t := this st.

Lemma runs_streaming_chunks (cs : list chunk) :
  runs_to (streaming host options (map Data cs)) st
    {| success := flag_after ops cs true; defer := Pending |}
    (exec_effects host options st ++ flat_map (chunk_effects ops) cs).
Proof.
  unfold streaming.
  eapply runs_bind; [apply runs_exec|]. cbn [fst snd].
  apply (runs_chunks ops cs (mkExec true Pending) (mkState (this st) _)).
Qed.

Lemma runs_streaming_exit (cs : list chunk) code signal :
  let flag := exit_flag ops code (flag_after ops cs true) in
  runs_to (streaming host options (map Data cs ++ [ExitEvent code signal])) st
    {| success := flag;
       defer :=
         if flag then Resolved code
         else Rejected (mkError (ToolRunner.toolPath self
                                 ++ " failed with return code: "
                                 ++ string_of_code code)) |}
    (exec_effects host options st ++ flat_map (chunk_effects ops) cs
     ++ exit_effects self code flag).
Proof.
  intros flag. unfold streaming.
  eapply runs_bind; [apply runs_exec|]. cbn [fst snd].
  unfold runs_to. rewrite deliver_all_app.
  erewrite bind_run
    by apply (runs_chunks ops cs (mkExec true Pending)
                (mkState (this st) _)).
  cbn [deliver_all deliver].
  erewrite bind_run by apply runs_on_exit.
  unfold ret. simpl. subst flag. fold ops self.
  rewrite <- !app_assoc.
  destruct (exit_flag ops code (flag_after ops cs true)); reflexivity.
Qed.

Lemma runs_streaming_error err (later : list child_event) :
  exists x out,
    runs_to (streaming host options (ErrorEvent err :: later)) st x out
    /\ defer x = Rejected (mkError (ToolRunner.toolPath self ++ " failed. "
                                    ++ message err)).
Proof.
  destruct (runs_deliver_all_settled ops later
              {| success := true;
                 defer := Rejected (mkError (ToolRunner.toolPath self
                                             ++ " failed. " ++ message err)) |}
              (mkState (this st) (log st ++ exec_effects host options st ++ [])))
    as (x & out & R & E); [discriminate|].
  exists x, (exec_effects host options st ++ [] ++ out). split; [|exact E].
  unfold streaming.
  eapply runs_bind; [apply runs_exec|].
  cbn [deliver_all fst snd deliver].
  eapply runs_bind; [apply runs_on_error|].
  simpl in *. rewrite app_nil_r in *. exact R.
Qed.

End StreamingRuns.

(** ** The blocking invoker *)

Section BlockingRuns.

Variable host : Host.t.
Variable options : option IExecOptions.t.
Variable st : state.

Let ops : Ops.t := resolve_options host options.
Let self : ToolRunner.t := this st.
Let r : SpawnSyncReturns.t := spawn_report host self ops.

Lemma runs_execSync :
  runs_to (execSync host options) st
    {| IExecResult.stdout := SpawnSyncReturns.stdout r;
       IExecResult.stderr := SpawnSyncReturns.stderr r;
       IExecResult.code := SpawnSyncReturns.status r;
       IExecResult.error := SpawnSyncReturns.error r |}
    (announce_effects host options self
     ++ [SpawnSync (ToolRunner.toolPath self) (ToolRunner.args self)
           (Ops.cwd ops) (Ops.env ops)]
     ++ collected_output_effects host options st).
Proof.
  eapply runs_weaken.
  - unfold execSync. eapply runs_bind; [apply runs_announce|].
    repeat run_step.
  - unfold collected_output_effects. simpl. rewrite !app_nil_r. reflexivity.
Qed.

End BlockingRuns.

(** * Properties of the process invoker *)

(** C3: at the exit of the child with code [code], after any chunks: the
    flag is cleared when the code is not 0 and [ignoreReturnCode] is false,
    and is left as it was otherwise; with the flag true the promise is
    resolved with [code], with the flag false it is rejected with an error
    whose message is the tool path, [ failed with return code: ] and the
    code.  In particular an exit with code 1 under [ignoreReturnCode]
    resolves with 1. *)
Theorem exit_settles_by_flag (host : Host.t) (options : option IExecOptions.t)
    (st : state) (cs : list chunk) (code : option Z) (signal : option string) :
  let ops := resolve_options host options in
  (exists before st1 after st2,
     streaming host options (map Data cs) st = (Ok before, st1)
     /\ streaming host options (map Data cs ++ [ExitEvent code signal]) st
        = (Ok after, st2)
     /\ success after
        = (if code_nonzero code && negb (Ops.ignoreReturnCode ops) then false
           else success before)
     /\ defer after
        = (if success after then Resolved code
           else Rejected (mkError (ToolRunner.toolPath (this st)
                                   ++ " failed with return code: "
                                   ++ string_of_code code))))
  /\ (forall cwd env silent failOnStdErr out err,
        fst (streaming host
               (Some (IExecOptions.mk cwd env silent failOnStdErr (Some true)
                        out err))
               [ExitEvent (Some 1%Z) signal] st)
        = Ok {| success := true; defer := Resolved (Some 1%Z) |}).
Proof.
  intros ops. split.
  - eexists _, _, _, _.
    split; [apply runs_streaming_chunks|].
    split; [apply runs_streaming_exit|].
    cbn [success defer]. fold ops. unfold exit_flag. split; [|reflexivity].
    destruct (code_nonzero code && negb (Ops.ignoreReturnCode ops));
      simpl; [apply andb_false_r | apply andb_true_r].
  - intros cwd env silent failOnStdErr out err.
    rewrite (runs_streaming_exit host _ st [] (Some 1%Z) signal).
    reflexivity.
Qed.

(** C4: in a run where the child writes chunks, at least one of them on
    standard error, and then exits with code 0, the promise is resolved
    with 0 when [failOnStdErr] is false and rejected when it is true; and
    between the spawn and the exit the log holds, for each chunk in turn,
    its event and then, only when [silent] is false, its write: a chunk of
    standard error on [errStream] under [failOnStdErr] and on [outStream]
    otherwise. *)
Theorem stderr_run_verdict_and_routing (host : Host.t)
    (options : option IExecOptions.t) (st : state) (cs : list chunk)
    (signal : option string) :
  existsb is_stderr cs = true ->
  let ops := resolve_options host options in
  exists x0 st0 x st1,
    exec host options st = (Ok (ops, x0), st0)
    /\ streaming host options (map Data cs ++ [ExitEvent (Some 0%Z) signal]) st
       = (Ok x, st1)
    /\ defer x
       = (if Ops.failOnStdErr ops
          then Rejected (mkError (ToolRunner.toolPath (this st)
                                  ++ " failed with return code: 0"))
          else Resolved (Some 0%Z))
    /\ log st1
       = log st0 ++ flat_map (chunk_effects ops) cs
         ++ exit_effects (this st) (Some 0%Z) (success x).
Proof.
  intros Hcs ops.
  eexists _, _, _, _.
  split; [apply runs_exec|].
  split; [apply runs_streaming_exit|].
  cbn [success defer log]. fold ops.
  unfold exit_flag, flag_after, exec_effects. rewrite Hcs.
  rewrite <- !app_assoc.
  destruct (Ops.failOnStdErr ops); split; reflexivity.
Qed.

Lemma stderr_run_verdict_and_routing_witness :
  let ops := resolve_options talkative_host strict_options in
  exists x0 st0 x st1,
    exec talkative_host strict_options echo_runner = (Ok (ops, x0), st0)
    /\ streaming talkative_host strict_options
         (map Data [StdoutData "out"; StderrData "err"]
          ++ [ExitEvent (Some 0%Z) None]) echo_runner
       = (Ok x, st1)
    /\ defer x
       = (if Ops.failOnStdErr ops
          then Rejected (mkError (ToolRunner.toolPath (this echo_runner)
                                  ++ " failed with return code: 0"))
          else Resolved (Some 0%Z))
    /\ log st1
       = log st0
         ++ flat_map (chunk_effects ops) [StdoutData "out"; StderrData "err"]
         ++ exit_effects (this echo_runner) (Some 0%Z) (success x).
Proof.
  apply (stderr_run_verdict_and_routing talkative_host strict_options
           echo_runner [StdoutData "out"; StderrData "err"] None).
  reflexivity.
Defined.

(** C5: the flag starts true, and from every state that chunks lead to,
    the handler of one more chunk (standard output or standard error) and
    the exit handler each leave the flag as it was or set it to false. *)
Theorem success_flag_monotone (host : Host.t)
    (options : option IExecOptions.t) (st : state) (cs : list chunk) :
  let ops := resolve_options host options in
  exists x0 st0 x st1,
    exec host options st = (Ok (ops, x0), st0)
    /\ success x0 = true
    /\ deliver_all ops (map Data cs) x0 st0 = (Ok x, st1)
    /\ (forall c s, exists x' s',
          on_chunk ops c x s = (Ok x', s')
          /\ (success x' = success x \/ success x' = false))
    /\ (forall code signal s, exists x' s',
          on_exit ops code signal x s = (Ok x', s')
          /\ (success x' = success x \/ success x' = false)).
Proof.
  intros ops.
  eexists _, _, _, _.
  split; [apply runs_exec|].
  split; [reflexivity|].
  split; [apply (runs_chunks ops cs (mkExec true Pending)
                   (mkState (this st) _))|].
  cbn [success]. split.
  - intros c s. eexists _, _. split; [apply runs_on_chunk|].
    cbn [success]. unfold flag_after.
    destruct c as [d|d]; cbn [existsb is_stderr orb]; [left; reflexivity|].
    destruct (Ops.failOnStdErr ops); [right; reflexivity|].
    left. destruct (existsb is_stderr cs); reflexivity.
  - intros code signal s. eexists _, _. split; [apply runs_on_exit|].
    cbn [success]. unfold exit_flag.
    destruct (code_nonzero code && negb (Ops.ignoreReturnCode ops)); simpl.
    + right. apply andb_false_r.
    + left. apply andb_true_r.
Qed.

(** C8: when the tool cannot be launched, whatever the options: on the
    streaming path the error handler, run first, rejects the promise with
    an error whose message is the tool path, [ failed. ] and the message of
    the platform's error, it touches neither the flag nor the log, and the
    promise stays rejected with that error whatever arrives later; on the
    blocking path [execSync] returns a result whose [error] is the error
    the platform reported. *)
Theorem launch_failure_fails_both_paths (host : Host.t)
    (options : option IExecOptions.t) (st : state) (err e : Error)
    (later : list child_event) :
  let ops := resolve_options host options in
  let rejection :=
    Rejected (mkError (ToolRunner.toolPath (this st) ++ " failed. "
                       ++ message err)) in
  SpawnSyncReturns.error (spawn_report host (this st) ops) = Some e ->
  (exists x0 st0 x st1,
     exec host options st = (Ok (ops, x0), st0)
     /\ on_error ops err x0 st0
        = (Ok {| success := success x0; defer := rejection |}, st0)
     /\ streaming host options (ErrorEvent err :: later) st = (Ok x, st1)
     /\ defer x = rejection)
  /\ (exists res st1,
        execSync host options st = (Ok res, st1)
        /\ IExecResult.error res = Some e).
Proof.
  intros ops rejection He. split.
  - destruct (runs_streaming_error host options st err later)
      as (x & out & R & E).
    eexists _, _, x, _.
    split; [apply runs_exec|].
    split; [|split; [exact R | exact E]].
    rewrite (runs_on_error ops err (mkExec true Pending)
               (mkState (this st) _)).
    simpl. rewrite app_nil_r. reflexivity.
  - eexists _, _. split; [apply runs_execSync|]. exact He.
Qed.

Lemma launch_failure_fails_both_paths_witness :
  let ops := resolve_options failing_host strict_options in
  let rejection :=
    Rejected (mkError (ToolRunner.toolPath (this echo_runner) ++ " failed. "
                       ++ "spawn /bin/echo ENOENT")) in
  (exists x0 st0 x st1,
     exec failing_host strict_options echo_runner = (Ok (ops, x0), st0)
     /\ on_error ops (mkError "spawn /bin/echo ENOENT") x0 st0
        = (Ok {| success := success x0; defer := rejection |}, st0)
     /\ streaming failing_host strict_options
          [ErrorEvent (mkError "spawn /bin/echo ENOENT");
           ExitEvent (Some 0%Z) None] echo_runner
        = (Ok x, st1)
     /\ defer x = rejection)
  /\ (exists res st1,
        execSync failing_host strict_options echo_runner = (Ok res, st1)
        /\ IExecResult.error res
           = Some (mkError "spawnSync /bin/echo ENOENT")).
Proof.
  apply (launch_failure_fails_both_paths failing_host strict_options
           echo_runner (mkError "spawn /bin/echo ENOENT")
           (mkError "spawnSync /bin/echo ENOENT")
           [ExitEvent (Some 0%Z) None]).
  reflexivity.
Defined.

(** C9: when the platform reports no error, [execSync] returns, without
    throwing, the record made of the exit status, the collected standard
    output, the collected standard error and no error; a status other than
    0 is returned in [code] like any other. *)
Theorem execSync_reports_raw_outcome (host : Host.t)
    (options : option IExecOptions.t) (st : state) :
  let r := spawn_report host (this st) (resolve_options host options) in
  SpawnSyncReturns.error r = None ->
  exists st',
    execSync host options st
    = (Ok {| IExecResult.stdout := SpawnSyncReturns.stdout r;
             IExecResult.stderr := SpawnSyncReturns.stderr r;
             IExecResult.code := SpawnSyncReturns.status r;
             IExecResult.error := None |}, st').
Proof.
  intros r He. eexists.
  rewrite (runs_execSync host options st). fold r. rewrite He. reflexivity.
Qed.

Lemma execSync_reports_raw_outcome_witness :
  exists st',
    execSync (plain_host 3) None echo_runner
    = (Ok {| IExecResult.stdout := Some "hello";
             IExecResult.stderr := Some "";
             IExecResult.code := Some 3%Z;
             IExecResult.error := None |}, st').
Proof.
  apply (execSync_reports_raw_outcome (plain_host 3) None echo_runner).
  reflexivity.
Defined.

(** C10: after the spawn, [execSync] writes the collected standard output
    on [outStream] when it is not empty, then the collected standard error
    on [errStream] when it is not empty, and nothing else; replacing
    [failOnStdErr] in the options changes neither the result nor the log.
    The streaming handler of a chunk of standard error writes it, unless
    [silent], on [errStream] under [failOnStdErr] and on [outStream]
    otherwise. *)
Theorem execSync_routes_by_stream (host : Host.t)
    (options : option IExecOptions.t) (st : state) :
  let ops := resolve_options host options in
  let r := spawn_report host (this st) ops in
  (exists st0 res st1,
     announce host options st = (Ok ops, st0)
     /\ execSync host options st = (Ok res, st1)
     /\ log st1
        = log st0
          ++ [SpawnSync (ToolRunner.toolPath (this st))
                (ToolRunner.args (this st)) (Ops.cwd ops) (Ops.env ops)]
          ++ (if non_empty (SpawnSyncReturns.stdout r)
              then [Write (Ops.outStream ops)
                      (or_default (SpawnSyncReturns.stdout r) "")]
              else [])
          ++ (if non_empty (SpawnSyncReturns.stderr r)
              then [Write (Ops.errStream ops)
                      (or_default (SpawnSyncReturns.stderr r) "")]
              else []))
  /\ (forall b,
        execSync host (with_failOnStdErr b options) st
        = execSync host options st)
  /\ (forall d x s,
        on_stderr_data ops d x s
        = (Ok {| success := negb (Ops.failOnStdErr ops); defer := defer x |},
           {| this := this s;
              log := log s
                     ++ Emit "stderr" d
                        :: (if Ops.silent ops then []
                            else [Write (if Ops.failOnStdErr ops
                                         then Ops.errStream ops
                                         else Ops.outStream ops) d]) |})).
Proof.
  intros ops r. split; [|split].
  - eexists _, _, _.
    split; [apply runs_announce|].
    split; [apply runs_execSync|].
    cbn [log]. rewrite <- app_assoc. reflexivity.
  - intros b.
    rewrite (runs_execSync host options st).
    rewrite (runs_execSync host (with_failOnStdErr b options) st).
    destruct options as [o|]; reflexivity.
  - intros d x s. apply runs_on_stderr_data.
Qed.

(** C2, at an input where it fails: under options with [silent] set,
    [execSync] on a child that printed [hello] and [oops] still writes
    both, one on the standard output of the process and one on its standard
    error; only the echo of the command line is held back. *)
Theorem execSync_writes_under_silent :
  Ops.silent (resolve_options talkative_host silent_options) = true
  /\ filter is_write
       (log (snd (execSync talkative_host silent_options echo_runner)))
     = [Write process_stdout "hello"; Write process_stderr "oops"].
Proof. split; reflexivity. Qed.

(** * Further properties of the argument builder *)

(** ** Strings *)

Lemma length_app (a b : string) :
  String.length (a ++ b) = String.length a + String.length b.
Proof. induction a as [|c a IH]; simpl; [reflexivity | now rewrite IH]. Qed.

Lemma take_app (a b : string) : take (String.length a) (a ++ b) = a.
Proof. induction a as [|c a IH]; simpl; [now destruct b | now rewrite IH]. Qed.

Lemma drop_app (a b : string) : drop (String.length a) (a ++ b) = b.
Proof. induction a as [|c a IH]; simpl; [reflexivity | exact IH]. Qed.

Lemma app_empty_r (a : string) : (a ++ "")%string = a.
Proof. induction a as [|c a IH]; simpl; [reflexivity | now rewrite IH]. Qed.

Lemma app_assoc_string (a b c : string) :
  ((a ++ b) ++ c)%string = (a ++ (b ++ c))%string.
Proof. induction a as [|x a IH]; simpl; [reflexivity | now rewrite IH]. Qed.

(** ** The matching loop, one match at a time *)

Lemma match_here_le (r : regex) (s : string) n :
  match_here r s = Some n -> n <= String.length s.
Proof.
  unfold match_here. destruct (rmatch r s Some); [|discriminate].
  intros H. injection H as <-. lia.
Qed.

(** Where the pattern does not match at the head, the loop goes on with
    the tail. *)
Lemma match_loop_skip (r : regex) (fuel : nat) (c : ascii) (s : string) :
  match_here r (String c s) = None ->
  match_loop r fuel (String c s) = match_loop r fuel s.
Proof.
  intros H. destruct fuel as [|fuel]; [reflexivity|].
  cbn [match_loop regexp_exec]. rewrite H.
  destruct (regexp_exec r s) as [[i n]|]; [|reflexivity].
  reflexivity.
Qed.

(** Where it matches [n] characters at the head, they are the next match
    and the loop goes on after them. *)
Lemma match_loop_take (r : regex) (fuel : nat) (s : string) n :
  match_here r s = Some n -> 1 <= n ->
  match_loop r (S fuel) s
  = option_map (cons (take n s)) (match_loop r fuel (drop n s)).
Proof.
  intros H Hn. pose proof (match_here_le r s n H) as Hle.
  cbn [match_loop].
  assert (E : regexp_exec r s = Some (0, n)).
  { destruct s; simpl; rewrite H; reflexivity. }
  rewrite E. cbn [drop Nat.add].
  replace (Nat.max n 1) with n by lia.
  destruct (Nat.ltb_spec (String.length s) n); [lia|reflexivity].
Qed.

(** ** What the pattern matches *)

(** A greedy run takes every character of the class in front of it when
    what follows then matches. *)
Lemma star_not_greedy (cs : list ascii) (w rest : string) k res :
  all_chars (in_negated_class cs) w = true ->
  star_not cs rest k = Some res ->
  star_not cs (w ++ rest) k = Some res.
Proof.
  intros Hw Hk. induction w as [|c w IH]; simpl in *; [exact Hk|].
  apply andb_true_iff in Hw. destruct Hw as [Hc Hw].
  rewrite Hc, (IH Hw). reflexivity.
Qed.

Lemma class_spec (c : ascii) :
  in_negated_class [dquote; space] c
  = negb (Ascii.eqb c dquote) && negb (Ascii.eqb c space).
Proof.
  unfold in_negated_class. cbn [existsb].
  rewrite orb_false_r, negb_orb. reflexivity.
Qed.

Lemma class_dquote_spec (c : ascii) :
  in_negated_class [dquote] c = negb (Ascii.eqb c dquote).
Proof.
  unfold in_negated_class. cbn [existsb]. rewrite orb_false_r. reflexivity.
Qed.

Lemma plain_not_dquote (c : ascii) :
  in_negated_class [dquote; space] c = true -> Ascii.eqb dquote c = false.
Proof.
  rewrite class_spec, Ascii.eqb_sym. intros H.
  apply andb_true_iff in H. destruct H as [H _].
  destruct (Ascii.eqb dquote c); [discriminate | reflexivity].
Qed.

Lemma token_end_stops (tl : string) k :
  token_end tl = true -> star_not [dquote; space] tl k = k tl.
Proof.
  destruct tl as [|c tl]; [reflexivity|].
  unfold token_end. intros H. apply Ascii.eqb_eq in H. subst c. reflexivity.
Qed.

(** The first alternative needs a double quote: its run of plain
    characters fails on a plain word that a token end follows, whenever
    what comes next fails off a double quote. *)
Lemma quoted_alternative_fails (w tl : string) k :
  k EmptyString = None ->
  (forall c s, Ascii.eqb dquote c = false -> k (String c s) = None) ->
  all_chars (in_negated_class [dquote; space]) w = true ->
  token_end tl = true ->
  star_not [dquote; space] (w ++ tl) k = None.
Proof.
  intros Hk0 Hk Hw Htl. induction w as [|c w IH].
  - cbn [append]. rewrite token_end_stops by assumption.
    destruct tl as [|c tl]; [exact Hk0|].
    unfold token_end in Htl. apply Ascii.eqb_eq in Htl. subst c.
    apply Hk. reflexivity.
  - cbn [all_chars] in Hw. apply andb_true_iff in Hw. destruct Hw as [Hc Hw].
    cbn [append star_not]. rewrite Hc, (IH Hw).
    apply Hk, plain_not_dquote, Hc.
Qed.

Lemma one_match_plain_word (w : string) :
  plain_word w = true -> one_match w.
Proof.
  unfold plain_word. intros H. apply andb_true_iff in H.
  destruct H as [Hne Hw].
  destruct w as [|c w]; [discriminate|]. split; [cbn [String.length]; lia|].
  intros tl Htl. unfold match_here, arg_pattern. cbn [rmatch].
  rewrite (quoted_alternative_fails (String c w) tl); try assumption.
  - cbn [all_chars] in Hw. apply andb_true_iff in Hw. destruct Hw as [Hc Hw].
    cbn [append]. rewrite Hc.
    rewrite (star_not_greedy [dquote; space] w tl Some tl Hw)
      by (apply token_end_stops; assumption).
    f_equal. cbn [String.length]. rewrite length_app. lia.
  - reflexivity.
  - intros c' s' E. rewrite E. reflexivity.
Qed.

Lemma no_dquote_class (t : string) :
  occurs dquote t = false -> all_chars (in_negated_class [dquote]) t = true.
Proof.
  induction t as [|c t IH]; cbn [occurs all_chars]; [reflexivity|].
  intros H. apply orb_false_iff in H. destruct H as [Hc Ht].
  rewrite class_dquote_spec, Hc, (IH Ht). reflexivity.
Qed.

Lemma match_quoted_here (t tl : string) :
  occurs dquote t = false ->
  star_not [dquote; space] tl Some = Some tl ->
  rmatch arg_pattern (String dquote (t ++ String dquote tl)) Some = Some tl.
Proof.
  intros Ht Htl. unfold arg_pattern. cbn [rmatch star_not].
  change (in_negated_class [dquote; space] dquote) with false. cbv iota.
  rewrite Ascii.eqb_refl.
  rewrite (star_not_greedy [dquote] t (String dquote tl) _ tl
             (no_dquote_class t Ht)); [reflexivity|].
  cbn [star_not].
  change (in_negated_class [dquote] dquote) with false. cbv iota.
  rewrite Ascii.eqb_refl. exact Htl.
Qed.

Lemma match_here_quoted (t tl : string) :
  occurs dquote t = false ->
  star_not [dquote; space] tl Some = Some tl ->
  match_here arg_pattern ((q ++ t ++ q) ++ tl)
  = Some (String.length (q ++ t ++ q)).
Proof.
  intros Ht Htl. unfold match_here.
  rewrite !app_assoc_string.
  change (q ++ t ++ q ++ tl)%string with (String dquote (t ++ String dquote tl)).
  rewrite (match_quoted_here t tl Ht Htl).
  f_equal. unfold q. cbn [append String.length]. rewrite !length_app.
  cbn [String.length]. lia.
Qed.

Lemma one_match_quoted (t : string) :
  occurs dquote t = false -> one_match (q ++ t ++ q).
Proof.
  intros Ht. split; [unfold q; cbn [append String.length]; lia|].
  intros tl Htl. apply match_here_quoted; [exact Ht|].
  apply token_end_stops, Htl.
Qed.

Lemma one_match_write_arg (a : string) :
  occurs dquote a = false -> one_match (write_arg a).
Proof.
  intros Ha. unfold write_arg. destruct (plain_word a) eqn:E.
  - apply one_match_plain_word, E.
  - apply one_match_quoted, Ha.
Qed.

(** ** Reading back a line written from arguments *)

Lemma match_loop_join (segs : list string) :
  Forall one_match segs ->
  forall fuel, String.length (join " " segs) < fuel ->
  match_loop arg_pattern fuel (join " " segs) = Some segs.
Proof.
  induction segs as [|x l IH]; intros Hall fuel Hlen.
  - destruct fuel; [lia | reflexivity].
  - inversion Hall as [|x' l' [Hx1 Hx] Hl]; subst.
    destruct fuel as [|fuel]; [lia|].
    destruct l as [|y l].
    + cbn [join] in *.
      pose proof (Hx EmptyString eq_refl) as Hm. rewrite app_empty_r in Hm.
      rewrite (match_loop_take _ _ _ _ Hm Hx1).
      pose proof (take_app x EmptyString) as Ht.
      pose proof (drop_app x EmptyString) as Hd.
      rewrite app_empty_r in Ht, Hd. rewrite Ht, Hd.
      destruct fuel; [lia | reflexivity].
    + change (join " " (x :: y :: l))
        with (x ++ String space (join " " (y :: l)))%string in *.
      rewrite length_app in Hlen. cbn [String.length] in Hlen.
      rewrite (match_loop_take _ _ _ _
                 (Hx (String space (join " " (y :: l))) eq_refl) Hx1).
      rewrite take_app, drop_app.
      rewrite match_loop_skip by apply match_here_space.
      rewrite (IH Hl) by lia. reflexivity.
Qed.

Lemma join_not_empty (x : string) (l : list string) :
  1 <= String.length x -> join " " (x :: l) <> "".
Proof.
  destruct x as [|c x]; cbn [String.length]; [lia|].
  intros _. destruct l; discriminate.
Qed.

Lemma remove_all_absent (c : ascii) (s : string) :
  occurs c s = false -> remove_all c s = s.
Proof.
  induction s as [|c' s IH]; cbn [occurs remove_all]; [reflexivity|].
  intros H. apply orb_false_iff in H. destruct H as [Hc Hs].
  rewrite Hc, (IH Hs). reflexivity.
Qed.

Lemma remove_all_app (c : ascii) (a b : string) :
  remove_all c (a ++ b) = (remove_all c a ++ remove_all c b)%string.
Proof.
  induction a as [|c' a IH]; cbn [append remove_all]; [reflexivity|].
  rewrite IH. destruct (Ascii.eqb c' c); reflexivity.
Qed.

Lemma remove_all_write_arg (a : string) :
  occurs dquote a = false -> remove_all dquote (write_arg a) = a.
Proof.
  intros Ha. unfold write_arg. destruct (plain_word a).
  - apply remove_all_absent, Ha.
  - rewrite !remove_all_app, (remove_all_absent _ _ Ha).
    change (remove_all dquote q) with EmptyString.
    cbn [append]. apply app_empty_r.
Qed.

(** [arg] on a line of matches that stand one space apart appends each of
    them with its double quotes removed. *)
Lemma arg_on_joined_matches (host : Host.t) (segs : list string) (st : state) :
  Forall one_match segs ->
  arg host (VString (join " " segs)) false st
  = (Ok tt,
     {| this :=
          ToolRunner.mk (ToolRunner.toolPath (this st))
            (ToolRunner.args (this st) ++ map (remove_all dquote) segs)
            (ToolRunner.silent (this st));
        log :=
          log (snd (arg host (VString (join " " segs)) false st)) |}).
Proof.
  intros Hall. destruct segs as [|x l].
  - cbn [join map]. rewrite app_nil_r.
    change (arg host (VString "") false st) with (Ok tt, st).
    destruct st as [[tp a sl] lg]. reflexivity.
  - assert (Hne : join " " (x :: l) <> "").
    { apply join_not_empty. inversion Hall as [|? ? [H1 _] _]. exact H1. }
    rewrite arg_string_run by assumption.
    unfold bind, _argStringToArray, String_match_g.
    rewrite (match_loop_join _ Hall) by lia.
    reflexivity.
Qed.

(** X3: a caller who writes each argument on the line as [write_arg] does
    (a plain word as it is, anything else between double quotes) and joins
    them with one space gets exactly these arguments appended, provided
    none holds a double quote; empty arguments and arguments with spaces
    come back as they were. *)
Theorem arg_reads_back_written_args (host : Host.t) (l : list string)
    (st : state) :
  Forall (fun a => occurs dquote a = false) l ->
  fst (arg host (VString (join " " (map write_arg l))) false st) = Ok tt
  /\ ToolRunner.args
       (this (snd (arg host (VString (join " " (map write_arg l))) false st)))
     = ToolRunner.args (this st) ++ l.
Proof.
  intros Hl.
  assert (Hall : Forall one_match (map write_arg l)).
  { apply Forall_map. eapply Forall_impl; [|exact Hl].
    intros a Ha. apply one_match_write_arg, Ha. }
  rewrite (arg_on_joined_matches host _ st Hall). cbn [fst snd this].
  split; [reflexivity|]. cbn [ToolRunner.args]. f_equal.
  rewrite map_map. rewrite <- (map_id l) at 2.
  apply map_ext_in. intros a Ha.
  apply remove_all_write_arg.
  rewrite Forall_forall in Hl. apply Hl, Ha.
Qed.

Lemma arg_reads_back_written_args_witness :
  fst (arg talkative_host
         (VString (join " " (map write_arg ["-m"; "two words"; ""; "x"])))
         false echo_runner) = Ok tt
  /\ ToolRunner.args
       (this (snd (arg talkative_host
                     (VString (join " "
                                 (map write_arg ["-m"; "two words"; ""; "x"])))
                     false echo_runner)))
     = ToolRunner.args (this echo_runner) ++ ["-m"; "two words"; ""; "x"].
Proof.
  apply (arg_reads_back_written_args talkative_host
           ["-m"; "two words"; ""; "x"] echo_runner).
  repeat constructor.
Defined.

Lemma plain_word_no_dquote (w : string) :
  all_chars (in_negated_class [dquote; space]) w = true ->
  occurs dquote w = false.
Proof.
  induction w as [|c w IH]; cbn [all_chars occurs]; [reflexivity|].
  intros H. apply andb_true_iff in H. destruct H as [Hc Hw].
  rewrite class_spec in Hc. apply andb_true_iff in Hc. destruct Hc as [Hc _].
  rewrite (IH Hw). destruct (Ascii.eqb c dquote); [discriminate|reflexivity].
Qed.

(** X4: [arg] undoes the join of [exec]: on the words of a list, each not
    empty and free of spaces and double quotes, joined with one space (the
    way [exec] and [execSync] build the echoed command line from [args]),
    it appends exactly these words. *)
Theorem arg_splits_joined_words (host : Host.t) (l : list string)
    (st : state) :
  forallb plain_word l = true ->
  fst (arg host (VString (join " " l)) false st) = Ok tt
  /\ ToolRunner.args (this (snd (arg host (VString (join " " l)) false st)))
     = ToolRunner.args (this st) ++ l.
Proof.
  intros Hl. rewrite forallb_forall in Hl.
  assert (Hall : Forall one_match l).
  { apply Forall_forall. intros w Hw. apply one_match_plain_word, Hl, Hw. }
  rewrite (arg_on_joined_matches host _ st Hall). cbn [fst snd this].
  split; [reflexivity|]. cbn [ToolRunner.args]. f_equal.
  rewrite <- (map_id l) at 2. apply map_ext_in. intros w Hw.
  apply remove_all_absent, plain_word_no_dquote.
  specialize (Hl w Hw). unfold plain_word in Hl.
  apply andb_true_iff in Hl. apply Hl.
Qed.

Lemma arg_splits_joined_words_witness :
  fst (arg talkative_host (VString (join " " ["build"; "-o"; "out.bin"]))
         false echo_runner) = Ok tt
  /\ ToolRunner.args
       (this (snd (arg talkative_host
                     (VString (join " " ["build"; "-o"; "out.bin"]))
                     false echo_runner)))
     = ToolRunner.args (this echo_runner) ++ ["build"; "-o"; "out.bin"].
Proof.
  apply (arg_splits_joined_words talkative_host ["build"; "-o"; "out.bin"]
           echo_runner).
  reflexivity.
Defined.

(** ** The inputs on which the tokenizer throws *)

Lemma arg_string_outcome (host : Host.t) (s : string) (st : state) :
  s <> "" ->
  fst (arg host (VString s) false st)
  = match regexp_exec arg_pattern s with
    | Some _ => Ok tt
    | None => Throw TypeError
    end.
Proof.
  intros Hs. rewrite arg_string_run by assumption.
  unfold bind, _argStringToArray.
  destruct (regexp_exec arg_pattern s) as [[i n]|] eqn:E.
  - destruct (String_match_g_some _ _ _ _ E) as (m & ms & ->). reflexivity.
  - rewrite (String_match_g_null _ _ E). reflexivity.
Qed.

(** Without a closing double quote the quoted span does not match. *)
Lemma unclosed_quote_fails (s : string) k :
  occurs dquote s = false ->
  k EmptyString = None ->
  (forall c s', Ascii.eqb dquote c = false -> k (String c s') = None) ->
  star_not [dquote] s k = None.
Proof.
  intros Hs Hk0 Hk. induction s as [|c s IH]; [exact Hk0|].
  cbn [occurs] in Hs. apply orb_false_iff in Hs. destruct Hs as [Hc Hs].
  cbn [star_not]. rewrite (IH Hs), class_dquote_spec, Hc. cbn [negb].
  apply Hk. rewrite Ascii.eqb_sym. exact Hc.
Qed.

Lemma match_here_unclosed_quote (s : string) :
  occurs dquote s = false ->
  match_here arg_pattern (String dquote s) = None.
Proof.
  intros Hs. unfold match_here, arg_pattern. cbn [rmatch star_not].
  change (in_negated_class [dquote; space] dquote) with false. cbv iota.
  rewrite Ascii.eqb_refl.
  rewrite (unclosed_quote_fails s); [reflexivity | assumption | reflexivity |].
  intros c s' E. rewrite E. reflexivity.
Qed.

(** With a closing double quote somewhere, it does. *)
Lemma closed_quote_matches (s : string) :
  occurs dquote s = true ->
  exists rest,
    star_not [dquote] s
      (fun s' => rmatch (RChar dquote) s'
                   (fun s'' => star_not [dquote; space] s'' Some))
    = Some rest.
Proof.
  induction s as [|c s IH]; cbn [occurs]; [discriminate|].
  intros H. cbn [star_not]. rewrite class_dquote_spec.
  destruct (Ascii.eqb c dquote) eqn:Hc; cbn [negb].
  - apply Ascii.eqb_eq in Hc. subst c. cbn [rmatch].
    rewrite Ascii.eqb_refl. apply star_not_end.
  - cbn [orb] in H. destruct (IH H) as [rest ->]. eauto.
Qed.

Lemma match_here_closed_quote (s : string) :
  occurs dquote s = true ->
  exists n, match_here arg_pattern (String dquote s) = Some n.
Proof.
  intros Hs. unfold match_here, arg_pattern. cbn [rmatch star_not].
  change (in_negated_class [dquote; space] dquote) with false. cbv iota.
  rewrite Ascii.eqb_refl.
  destruct (closed_quote_matches s Hs) as [rest E].
  cbn [rmatch] in E. rewrite E. eauto.
Qed.

Lemma count_occurs (c : ascii) (s : string) :
  occurs c s = negb (Nat.eqb (count_char c s) 0).
Proof.
  induction s as [|c' s IH]; cbn [occurs count_char]; [reflexivity|].
  rewrite IH. destruct (Ascii.eqb c' c); reflexivity.
Qed.

Lemma not_plain_char (c : ascii) :
  in_negated_class [dquote; space] c = false -> c = dquote \/ c = space.
Proof.
  rewrite class_spec. intros H.
  destruct (Ascii.eqb_spec c dquote); [left; assumption|].
  destruct (Ascii.eqb_spec c space); [right; assumption|discriminate].
Qed.

Lemma regexp_exec_blank (s : string) :
  has_plain_char s = false -> count_char dquote s < 2 ->
  regexp_exec arg_pattern s = None.
Proof.
  induction s as [|c s IH]; [reflexivity|].
  cbn [has_plain_char count_char]. intros Hp Hq.
  apply orb_false_iff in Hp. destruct Hp as [Hc Hp].
  cbn [regexp_exec].
  destruct (not_plain_char c Hc) as [-> | ->].
  - change (Ascii.eqb dquote dquote) with true in Hq. cbv iota in Hq.
    rewrite match_here_unclosed_quote.
    + rewrite IH by (assumption || lia). reflexivity.
    + rewrite count_occurs.
      destruct (count_char dquote s); [reflexivity | lia].
  - change (Ascii.eqb space dquote) with false in Hq. cbv iota in Hq.
    rewrite match_here_space, IH by (assumption || lia). reflexivity.
Qed.

Lemma regexp_exec_two_quotes (s : string) :
  2 <= count_char dquote s ->
  exists i n, regexp_exec arg_pattern s = Some (i, n).
Proof.
  induction s as [|c s IH]; cbn [count_char]; [lia|].
  intros Hq. cbn [regexp_exec].
  destruct (match_here arg_pattern (String c s)) as [n|] eqn:E; [eauto|].
  destruct (Ascii.eqb_spec c dquote) as [->|Hc].
  - destruct (match_here_closed_quote s) as [n En]; [|congruence].
    rewrite count_occurs. destruct (count_char dquote s); [lia|reflexivity].
  - destruct (IH Hq) as (i & n & ->). eauto.
Qed.

(** X1: [arg] on a string throws exactly on the blank lines: the strings
    that are not empty and hold nothing but spaces and at most one double
    quote.  On every other string it returns. *)
Theorem arg_throws_exactly_on_blank_lines (host : Host.t) (s : string)
    (st : state) :
  fst (arg host (VString s) false st)
  = if blank_line s then Throw TypeError else Ok tt.
Proof.
  unfold blank_line.
  destruct (String.eqb_spec s "") as [->|Hs]; [reflexivity|].
  rewrite arg_string_outcome by assumption. cbn [negb andb].
  destruct (has_plain_char s) eqn:Hp; cbn [negb andb].
  - destruct (regexp_exec_plain_char s Hp) as (i & n & ->). reflexivity.
  - destruct (Nat.ltb_spec (count_char dquote s) 2) as [Hq|Hq].
    + rewrite regexp_exec_blank by assumption. reflexivity.
    + destruct (regexp_exec_two_quotes s Hq) as (i & n & ->). reflexivity.
Qed.

(** ** Literal arguments, arrays, and what the builder leaves alone *)

Lemma arg_literal_run (host : Host.t) (s : string) (st : state) :
  s <> "" ->
  arg host (VString s) true st
  = (Ok tt,
     {| this := ToolRunner.mk (ToolRunner.toolPath (this st))
                  (ToolRunner.args (this st) ++ [s])
                  (ToolRunner.silent (this st));
        log := log st
               ++ debug_effects (this st)
                    (ToolRunner.toolPath (this st) ++ " literal arg: " ++ s) |}).
Proof.
  intros Hs. unfold arg, truthy.
  destruct (String.eqb_spec s ""); [contradiction|]. cbn [negb].
  unfold bind at 1. unfold get_this at 1.
  unfold bind at 1. rewrite _debug_run. reflexivity.
Qed.

Lemma arg_array_run (host : Host.t) (l : list string) (literal : bool)
    (st : state) :
  arg host (VArray l) literal st
  = (Ok tt,
     {| this := ToolRunner.mk (ToolRunner.toolPath (this st))
                  (ToolRunner.args (this st) ++ l)
                  (ToolRunner.silent (this st));
        log := log st
               ++ debug_effects (this st)
                    (ToolRunner.toolPath (this st) ++ " arg: "
                     ++ Host.JSON_stringify host l) |}).
Proof.
  unfold arg, truthy. cbn [negb].
  unfold bind at 1. unfold get_this at 1.
  unfold bind at 1. rewrite _debug_run. reflexivity.
Qed.

(** X6: [pathArg] and [arg] with the literal flag never split and never
    throw: a string that is not empty is appended as one token exactly as
    it is, spaces and double quotes included; the empty string appends
    nothing.  Path and [silent] of the runner stay as they were. *)
Theorem pathArg_appends_verbatim (host : Host.t) (s : string) (st : state) :
  let grown :=
    ToolRunner.mk (ToolRunner.toolPath (this st))
      (ToolRunner.args (this st) ++ (if String.eqb s "" then [] else [s]))
      (ToolRunner.silent (this st)) in
  (fst (pathArg host s st) = Ok tt /\ this (snd (pathArg host s st)) = grown)
  /\ (fst (arg host (VString s) true st) = Ok tt
      /\ this (snd (arg host (VString s) true st)) = grown).
Proof.
  cbv zeta. unfold pathArg.
  unfold bind at 1 3. unfold get_this at 1 2.
  unfold bind at 1 2. rewrite !_debug_run.
  destruct (String.eqb_spec s "") as [->|Hs].
  - change (arg host (VString "") true) with (@ret unit tt). unfold ret.
    cbn [fst snd this]. rewrite app_nil_r.
    destruct st as [[tp a sl] lg]. auto.
  - rewrite !arg_literal_run by assumption. cbn [fst snd this].
    cbn [ToolRunner.toolPath ToolRunner.args ToolRunner.silent]. auto.
Qed.

(** X7: [arg] on an array never throws and appends its elements as they
    are, in order, whatever the literal flag; arrays given one after the
    other end up concatenated behind the arguments already there. *)
Theorem arg_arrays_concatenate (host : Host.t) (ls : list (list string))
    (literal : bool) (st : state) :
  fst (for_each (fun l => arg host (VArray l) literal) ls st) = Ok tt
  /\ this (snd (for_each (fun l => arg host (VArray l) literal) ls st))
     = ToolRunner.mk (ToolRunner.toolPath (this st))
         (ToolRunner.args (this st) ++ concat ls)
         (ToolRunner.silent (this st)).
Proof.
  revert st. induction ls as [|l ls IH]; intros st.
  - cbn. rewrite app_nil_r. destruct st as [[tp a sl] lg]. auto.
  - cbn [for_each concat]. unfold bind. rewrite arg_array_run.
    match goal with |- context [for_each _ ls ?s1] => specialize (IH s1) end.
    cbn [this ToolRunner.toolPath ToolRunner.args ToolRunner.silent] in IH.
    rewrite <- app_assoc in IH. exact IH.
Qed.

Lemma debug_effects_are_debug (r : ToolRunner.t) (msg : string) :
  forallb is_debug_effect (debug_effects r msg) = true.
Proof. unfold debug_effects. destruct (ToolRunner.silent r); reflexivity. Qed.

(** X8: whatever [arg] is given and whether it returns or throws, it keeps
    the tool path and the runner's [silent], it only appends to [args] and
    only adds debug lines to the log (no write on a stream, no spawn); when
    it throws, [args] is as it was. *)
Theorem arg_only_appends (host : Host.t) (val : jsval) (literal : bool)
    (st : state) :
  let res := fst (arg host val literal st) in
  let st' := snd (arg host val literal st) in
  ToolRunner.toolPath (this st') = ToolRunner.toolPath (this st)
  /\ ToolRunner.silent (this st') = ToolRunner.silent (this st)
  /\ (exists tokens,
        ToolRunner.args (this st') = ToolRunner.args (this st) ++ tokens
        /\ (res = Ok tt \/ (res = Throw TypeError /\ tokens = [])))
  /\ (exists out,
        log st' = log st ++ out /\ forallb is_debug_effect out = true).
Proof.
  cbv zeta.
  assert (Hnop : arg host val literal st = (Ok tt, st) ->
            ToolRunner.toolPath (this (snd (arg host val literal st)))
            = ToolRunner.toolPath (this st)
            /\ ToolRunner.silent (this (snd (arg host val literal st)))
               = ToolRunner.silent (this st)
            /\ (exists tokens,
                  ToolRunner.args (this (snd (arg host val literal st)))
                  = ToolRunner.args (this st) ++ tokens
                  /\ (fst (arg host val literal st) = Ok tt
                      \/ (fst (arg host val literal st) = Throw TypeError
                          /\ tokens = [])))
            /\ (exists out,
                  log (snd (arg host val literal st)) = log st ++ out
                  /\ forallb is_debug_effect out = true)).
  { intros ->. cbn [fst snd]. repeat split.
    - exists []. rewrite app_nil_r. auto.
    - exists []. rewrite app_nil_r. auto. }
  destruct val as [| |b|z|s|l]; try (apply Hnop; reflexivity).
  - apply Hnop. unfold arg, truthy. destruct b; reflexivity.
  - apply Hnop. unfold arg, truthy. destruct (negb (z =? 0)%Z); reflexivity.
  - destruct (String.eqb_spec s "") as [->|Hs]; [apply Hnop; reflexivity|].
    clear Hnop. destruct literal.
    + rewrite arg_literal_run by assumption.
      cbn [fst snd this log ToolRunner.toolPath ToolRunner.silent
             ToolRunner.args].
      repeat split; eexists; split; try reflexivity; auto.
      apply debug_effects_are_debug.
    + rewrite arg_string_run by assumption. unfold bind, _argStringToArray.
      destruct (String_match_g arg_pattern s) as [matches|];
        unfold ret, throw, set_args;
        cbn [fst snd this log ToolRunner.toolPath ToolRunner.silent
               ToolRunner.args].
      * repeat split; eexists; split; try reflexivity; auto.
        apply debug_effects_are_debug.
      * repeat split.
        -- exists []. rewrite app_nil_r. auto.
        -- eexists; split; [reflexivity|apply debug_effects_are_debug].
  - clear Hnop. rewrite arg_array_run.
    cbn [fst snd this log ToolRunner.toolPath ToolRunner.silent
           ToolRunner.args].
    repeat split; eexists; split; try reflexivity; auto.
    apply debug_effects_are_debug.
Qed.

(** * Further properties of the process invoker *)

(** ** Which effects a run can log *)

Lemma filter_write_debug (r : ToolRunner.t) (msg : string) :
  filter is_write (debug_effects r msg) = [].
Proof. unfold debug_effects. destruct (ToolRunner.silent r); reflexivity. Qed.

Lemma filter_call_debug (r : ToolRunner.t) (msg : string) :
  ToolRunner.silent r = true ->
  filter is_debug_call (debug_effects r msg) = [].
Proof. unfold debug_effects. intros ->. reflexivity. Qed.

Lemma filter_flat_map_nil {A} (p : effect -> bool) (f : A -> list effect)
    (l : list A) :
  (forall a, filter p (f a) = []) -> filter p (flat_map f l) = [].
Proof.
  intros H. induction l as [|a l IH]; cbn [flat_map]; [reflexivity|].
  rewrite filter_app, H, IH. reflexivity.
Qed.

Lemma filter_write_announce (host : Host.t) (options : option IExecOptions.t)
    (r : ToolRunner.t) :
  let ops := resolve_options host options in
  filter is_write (announce_effects host options r)
  = if Ops.silent ops then []
    else [Write (Ops.outStream ops)
            ("[command]" ++ command_line r ++ Host.os_EOL host)].
Proof.
  cbv zeta. unfold announce_effects, command_line.
  rewrite !filter_app, !filter_write_debug.
  rewrite filter_flat_map_nil by (intros; apply filter_write_debug).
  destruct (Ops.silent (resolve_options host options)); reflexivity.
Qed.


Lemma filter_write_chunk (ops : Ops.t) (c : chunk) :
  Ops.silent ops = true -> filter is_write (chunk_effects ops c) = [].
Proof. intros H. destruct c; cbn [chunk_effects]; rewrite H; reflexivity. Qed.

Lemma filter_call_chunk (ops : Ops.t) (c : chunk) :
  filter is_debug_call (chunk_effects ops c) = [].
Proof. destruct c; cbn [chunk_effects]; destruct (Ops.silent ops); reflexivity. Qed.

(** Any event, in any state of the handlers: the handler returns, and what
    it logs holds no write under [silent] and no call of the module's
    [debug] on a silent runner. *)
Lemma runs_deliver_any (ops : Ops.t) (ev : child_event) x st :
  exists x' out,
    runs_to (deliver ops ev x) st x' out
    /\ (Ops.silent ops = true -> filter is_write out = [])
    /\ (ToolRunner.silent (this st) = true -> filter is_debug_call out = []).
Proof.
  destruct ev as [c|err|code signal]; cbn [deliver].
  - eexists _, _. split; [apply runs_on_chunk|]. split; intros H.
    + apply filter_write_chunk, H.
    + apply filter_call_chunk.
  - eexists _, _. split; [apply runs_on_error|]. split; reflexivity.
  - eexists _, _. split; [apply runs_on_exit|]. unfold exit_effects.
    split; intros H; rewrite filter_app.
    + rewrite !filter_write_debug. reflexivity.
    + rewrite !filter_call_debug by assumption. reflexivity.
Qed.

Lemma runs_deliver_all_any (ops : Ops.t) (evs : list child_event) :
  forall x st,
  exists x' out,
    runs_to (deliver_all ops evs x) st x' out
    /\ (Ops.silent ops = true -> filter is_write out = [])
    /\ (ToolRunner.silent (this st) = true -> filter is_debug_call out = []).
Proof.
  induction evs as [|ev evs IH]; intros x st.
  - exists x, []. split; [apply runs_ret|]. split; reflexivity.
  - destruct (runs_deliver_any ops ev x st) as (x1 & o1 & R1 & W1 & D1).
    destruct (IH x1 (mkState (this st) (log st ++ o1)))
      as (x2 & o2 & R2 & W2 & D2).
    exists x2, (o1 ++ o2). split.
    + cbn [deliver_all]. eapply runs_bind; eassumption.
    + split; intros H; rewrite filter_app.
      * rewrite W1, W2 by assumption. reflexivity.
      * rewrite D1, D2 by assumption. reflexivity.
Qed.

(** The whole of a streaming invocation, for any events in any order. *)
Lemma runs_streaming_any (host : Host.t) (options : option IExecOptions.t)
    (st : state) (evs : list child_event) :
  let ops := resolve_options host options in
  exists x out,
    runs_to (streaming host options evs) st x (exec_effects host options st ++ out)
    /\ (Ops.silent ops = true -> filter is_write out = [])
    /\ (ToolRunner.silent (this st) = true -> filter is_debug_call out = []).
Proof.
  cbv zeta.
  destruct (runs_deliver_all_any (resolve_options host options) evs
              (mkExec true Pending)
              (mkState (this st) (log st ++ exec_effects host options st)))
    as (x & out & R & W & D).
  exists x, out. split; [|split; assumption].
  unfold streaming. eapply runs_bind; [apply runs_exec|].
  cbn [fst snd]. exact R.
Qed.

(** ** The verdict of a streaming run *)

(** X10: in a run where the child writes chunks and then exits, the promise
    is resolved with the exit code exactly when no chunk of standard error
    came under [failOnStdErr] and the code is 0 or [ignoreReturnCode] is
    set; in every other case it is rejected with the message naming the
    tool path and the code.  So a run with exit code 0 and no chunk of
    standard error resolves under every option set. *)
Theorem streaming_verdict (host : Host.t) (options : option IExecOptions.t)
    (st : state) (cs : list chunk) (code : option Z) (signal : option string) :
  let ops := resolve_options host options in
  exists x st1,
    streaming host options (map Data cs ++ [ExitEvent code signal]) st
    = (Ok x, st1)
    /\ defer x
       = (if negb (existsb is_stderr cs && Ops.failOnStdErr ops)
             && (negb (code_nonzero code) || Ops.ignoreReturnCode ops)
          then Resolved code
          else Rejected (mkError (ToolRunner.toolPath (this st)
                                  ++ " failed with return code: "
                                  ++ string_of_code code))).
Proof.
  intros ops. eexists _, _.
  split; [apply runs_streaming_exit|].
  cbn [defer]. fold ops. unfold exit_flag, flag_after.
  destruct (existsb is_stderr cs), (Ops.failOnStdErr ops),
    (code_nonzero code), (Ops.ignoreReturnCode ops); reflexivity.
Qed.

(** X11: a child ended by a signal reports no code ([null]): the promise is
    then rejected, with a message that ends in [null], unless
    [ignoreReturnCode] is set; with it set, and no failure from standard
    error, it is resolved with [null]. *)
Theorem signalled_child_verdict (host : Host.t)
    (options : option IExecOptions.t) (st : state) (cs : list chunk)
    (signal : option string) :
  let ops := resolve_options host options in
  exists x st1,
    streaming host options (map Data cs ++ [ExitEvent None signal]) st
    = (Ok x, st1)
    /\ defer x
       = (if Ops.ignoreReturnCode ops
             && negb (existsb is_stderr cs && Ops.failOnStdErr ops)
          then Resolved None
          else Rejected (mkError (ToolRunner.toolPath (this st)
                                  ++ " failed with return code: null"))).
Proof.
  intros ops. eexists _, _.
  split; [apply runs_streaming_exit|].
  cbn [defer]. fold ops. unfold exit_flag, flag_after.
  destruct (existsb is_stderr cs), (Ops.failOnStdErr ops),
    (Ops.ignoreReturnCode ops); reflexivity.
Qed.

(** ** Events in any order *)

(** X12: whatever events arrive and in whatever order, a streaming
    invocation never throws and never changes the runner, and once the
    promise is settled no later event changes it. *)
Theorem streaming_settles_once (host : Host.t)
    (options : option IExecOptions.t) (st : state)
    (evs1 evs2 : list child_event) :
  exists x1 st1 x2 st2,
    streaming host options evs1 st = (Ok x1, st1)
    /\ streaming host options (evs1 ++ evs2) st = (Ok x2, st2)
    /\ this st1 = this st
    /\ this st2 = this st
    /\ (defer x1 = Pending \/ defer x2 = defer x1).
Proof.
  destruct (runs_streaming_any host options st evs1) as (x1 & o1 & R1 & _).
  destruct (runs_streaming_any host options st (evs1 ++ evs2))
    as (x2 & o2 & R2 & _).
  eexists x1, _, x2, _.
  split; [exact R1|]. split; [exact R2|].
  split; [reflexivity|]. split; [reflexivity|].
  destruct (defer x1) eqn:Hp; [left; reflexivity | right | right].
  all: unfold streaming in R1, R2; unfold runs_to, bind in R1, R2;
    rewrite (runs_exec host options st) in R1, R2; cbn [fst snd] in R1, R2;
    rewrite deliver_all_app in R2; unfold bind in R2; rewrite R1 in R2;
    match type of R2 with
    | deliver_all ?ops _ _ ?s = _ =>
        destruct (runs_deliver_all_settled ops evs2 x1 s)
          as (x' & o' & R' & E'); [rewrite Hp; discriminate|]
    end;
    rewrite R' in R2; injection R2 as <- _; rewrite E', Hp; reflexivity.
Qed.

(** X13: a chunk of standard error that arrives after the exit changes the
    promise in no way, so it cannot fail a run that has resolved; the
    handler still overwrites the flag with the negation of
    [failOnStdErr]. *)
Theorem late_stderr_chunk (host : Host.t) (options : option IExecOptions.t)
    (st : state) (cs : list chunk) (code : option Z) (signal : option string)
    (d : string) :
  let ops := resolve_options host options in
  exists x1 st1 x2 st2,
    streaming host options (map Data cs ++ [ExitEvent code signal]) st
    = (Ok x1, st1)
    /\ streaming host options
         ((map Data cs ++ [ExitEvent code signal]) ++ [Data (StderrData d)]) st
       = (Ok x2, st2)
    /\ defer x1 <> Pending
    /\ defer x2 = defer x1
    /\ success x2 = negb (Ops.failOnStdErr ops).
Proof.
  intros ops.
  pose proof (runs_streaming_exit host options st cs code signal) as R1.
  cbv zeta in R1.
  eexists _, _, _, _.
  split; [exact R1|].
  split.
  - unfold streaming, bind. rewrite (runs_exec host options st).
    cbn [fst snd]. rewrite deliver_all_app. unfold bind.
    unfold streaming, runs_to, bind in R1.
    rewrite (runs_exec host options st) in R1. cbn [fst snd] in R1.
    rewrite R1. cbn [deliver_all deliver on_chunk].
    unfold bind. rewrite runs_on_stderr_data. reflexivity.
  - cbn [defer success]. split; [|split; reflexivity].
    destruct (exit_flag _ _ _); discriminate.
Qed.

(** ** Silence *)

(** X14: under [silent] the streaming path writes on no stream, whatever
    events arrive; in a run of chunks followed by the exit it still emits
    the event of every chunk, in order, between the spawn and the debug
    lines of the exit. *)
Theorem streaming_silent_writes_nothing (host : Host.t)
    (options : option IExecOptions.t) (st : state)
    (evs : list child_event) (cs : list chunk) (code : option Z)
    (signal : option string) :
  Ops.silent (resolve_options host options) = true ->
  (exists x st1,
     streaming host options evs st = (Ok x, st1)
     /\ filter is_write (log st1) = filter is_write (log st))
  /\ (exists x st1,
        streaming host options (map Data cs ++ [ExitEvent code signal]) st
        = (Ok x, st1)
        /\ log st1
           = log st ++ exec_effects host options st
             ++ map chunk_event cs
             ++ exit_effects (this st) code (success x)).
Proof.
  intros Hs. split.
  - destruct (runs_streaming_any host options st evs) as (x & out & R & W & _).
    eexists _, _. split; [exact R|]. cbn [log].
    rewrite !filter_app, (W Hs). unfold exec_effects.
    rewrite filter_app.
    pose proof (filter_write_announce host options (this st)) as Ha.
    cbv zeta in Ha. rewrite Ha, Hs. cbn. rewrite app_nil_r. reflexivity.
  - eexists _, _. split; [apply runs_streaming_exit|].
    cbn [log success]. do 2 f_equal. f_equal.
    induction cs as [|c cs IH]; [reflexivity|].
    cbn [flat_map map]. rewrite IH.
    destruct c; cbn [chunk_effects chunk_event]; rewrite Hs; reflexivity.
Qed.

Lemma streaming_silent_writes_nothing_witness :
  (exists x st1,
     streaming talkative_host silent_options
       [Data (StderrData "late"); ExitEvent (Some 2%Z) None;
        Data (StdoutData "more")] echo_runner
     = (Ok x, st1)
     /\ filter is_write (log st1) = filter is_write (log echo_runner))
  /\ (exists x st1,
        streaming talkative_host silent_options
          (map Data [StdoutData "a"; StderrData "b"]
           ++ [ExitEvent (Some 0%Z) None]) echo_runner
        = (Ok x, st1)
        /\ log st1
           = log echo_runner
             ++ exec_effects talkative_host silent_options echo_runner
             ++ map chunk_event [StdoutData "a"; StderrData "b"]
             ++ exit_effects (this echo_runner) (Some 0%Z) (success x)).
Proof.
  apply (streaming_silent_writes_nothing talkative_host silent_options
           echo_runner
           [Data (StderrData "late"); ExitEvent (Some 2%Z) None;
            Data (StdoutData "more")]
           [StdoutData "a"; StderrData "b"] (Some 0%Z) None).
  reflexivity.
Defined.



(** ** The two paths side by side *)

(** X16: [exec] and [execSync] start alike: the same debug lines and the
    same echo, then one spawn with the runner's path and arguments and the
    resolved directory and environment.  The echo is the only write before
    the spawn: the marker, the path, then a space and the arguments
    joined by spaces when that join is not empty, then the end of line. *)
Theorem both_paths_start_alike (host : Host.t)
    (options : option IExecOptions.t) (st : state) :
  let ops := resolve_options host options in
  let self := this st in
  exists before x st1 res st2 after,
    exec host options st = (Ok (ops, x), st1)
    /\ log st1
       = log st ++ before
         ++ [Spawn (ToolRunner.toolPath self) (ToolRunner.args self)
               (Ops.cwd ops) (Ops.env ops)]
    /\ execSync host options st = (Ok res, st2)
    /\ log st2
       = log st ++ before
         ++ [SpawnSync (ToolRunner.toolPath self) (ToolRunner.args self)
               (Ops.cwd ops) (Ops.env ops)]
         ++ after
    /\ filter is_write before
       = (if Ops.silent ops then []
          else [Write (Ops.outStream ops)
                  ("[command]" ++ command_line self ++ Host.os_EOL host)])
    /\ this st1 = self /\ this st2 = self.
Proof.
  intros ops self.
  exists (announce_effects host options self).
  eexists _, _, _, _, _.
  split; [apply runs_exec|]. split; [reflexivity|].
  split; [apply runs_execSync|]. split; [reflexivity|].
  split; [apply filter_write_announce|]. split; reflexivity.
Qed.

(** X17: [execSync] never throws, whatever the platform reports, leaves the
    runner as it is, and takes no account of the two policy flags:
    replacing [failOnStdErr] and [ignoreReturnCode] changes neither the
    result nor the log, and a status other than 0 comes back in [code]
    even when [ignoreReturnCode] is unset. *)
Theorem execSync_ignores_policy (host : Host.t)
    (options : option IExecOptions.t) (st : state)
    (fail ignore : option bool) :
  let r := spawn_report host (this st) (resolve_options host options) in
  exists res st1,
    execSync host options st = (Ok res, st1)
    /\ execSync host (with_policy fail ignore options) st = (Ok res, st1)
    /\ this st1 = this st
    /\ IExecResult.code res = SpawnSyncReturns.status r
    /\ IExecResult.error res = SpawnSyncReturns.error r.
Proof.
  intros r. eexists _, _.
  split; [apply runs_execSync|].
  split; [|split; [reflexivity | split; reflexivity]].
  rewrite (runs_execSync host (with_policy fail ignore options) st).
  destruct options as [o|]; reflexivity.
Qed.

(** * Lines without double quotes: the words *)

Lemma words_space (s : string) : words (String space s) = words s.
Proof.
  unfold words. cbn [words_aux]. destruct (words_aux s) as [w ws].
  change (Ascii.eqb space space) with true. reflexivity.
Qed.

Lemma words_aux_plain (w tl : string) :
  all_chars (in_negated_class [dquote; space]) w = true ->
  words_aux (w ++ tl)
  = ((w ++ fst (words_aux tl))%string, snd (words_aux tl)).
Proof.
  intros Hw. induction w as [|c w IH]; cbn [append].
  - destruct (words_aux tl); reflexivity.
  - cbn [all_chars] in Hw. apply andb_true_iff in Hw. destruct Hw as [Hc Hw].
    cbn [words_aux]. rewrite (IH Hw).
    rewrite class_spec in Hc. apply andb_true_iff in Hc.
    destruct Hc as [_ Hc]. destruct (Ascii.eqb c space); [discriminate|].
    reflexivity.
Qed.

Lemma words_plain_word (w tl : string) :
  plain_word w = true -> token_end tl = true ->
  words (w ++ tl) = w :: words tl.
Proof.
  unfold plain_word. intros Hw Htl. apply andb_true_iff in Hw.
  destruct Hw as [Hne Hw]. unfold words at 1. rewrite words_aux_plain by exact Hw.
  destruct tl as [|c tl].
  - cbn. rewrite app_empty_r. unfold cons_word.
    destruct (String.eqb w ""); [discriminate|reflexivity].
  - unfold token_end in Htl. apply Ascii.eqb_eq in Htl. subst c.
    rewrite words_space. unfold words. cbn [words_aux].
    destruct (words_aux tl) as [w' ws].
    change (Ascii.eqb space space) with true. cbn [fst snd].
    rewrite app_empty_r. unfold cons_word at 1.
    destruct (String.eqb w ""); [discriminate|reflexivity].
Qed.

(** A line without double quotes that starts with a plain character starts
    with a plain word that a token end follows. *)
Lemma leading_word (c : ascii) (s : string) :
  in_negated_class [dquote; space] c = true ->
  occurs dquote s = false ->
  exists w tl,
    String c s = (w ++ tl)%string
    /\ plain_word w = true
    /\ token_end tl = true
    /\ occurs dquote tl = false
    /\ String.length tl <= String.length s.
Proof.
  revert c. induction s as [|c' s IH]; intros c Hc Hs.
  - exists (String c EmptyString), EmptyString.
    unfold plain_word. cbn [all_chars]. rewrite Hc. repeat split.
    cbn. lia.
  - cbn [occurs] in Hs. apply orb_false_iff in Hs. destruct Hs as [Hc' Hs].
    destruct (in_negated_class [dquote; space] c') eqn:E.
    + destruct (IH c' E Hs) as (w & tl & Eq & Hw & Htl & Hq & Hlen).
      exists (String c w), tl. cbn [append]. rewrite <- Eq.
      unfold plain_word in *. cbn [all_chars]. rewrite Hc.
      apply andb_true_iff in Hw. destruct Hw as [_ Hw]. rewrite Hw.
      repeat split; try assumption. cbn [String.length]. lia.
    + exists (String c EmptyString), (String c' s).
      unfold plain_word. cbn [all_chars]. rewrite Hc. repeat split.
      * destruct (not_plain_char c' E) as [-> | ->]; [|reflexivity].
        rewrite Ascii.eqb_refl in Hc'. discriminate.
      * cbn [occurs]. rewrite Hc', Hs. reflexivity.
      * cbn [String.length]. lia.
Qed.

Lemma match_loop_words (n : nat) :
  forall s fuel,
    String.length s <= n -> String.length s < fuel ->
    occurs dquote s = false ->
    match_loop arg_pattern fuel s = Some (words s).
Proof.
  induction n as [|n IH]; intros s fuel Hn Hf Hq.
  - destruct s; [|cbn in Hn; lia]. destruct fuel; [lia|reflexivity].
  - destruct s as [|c s]; [destruct fuel; [lia|reflexivity]|].
    cbn [String.length] in Hn, Hf.
    pose proof Hq as Hq'. cbn [occurs] in Hq'.
    apply orb_false_iff in Hq'. destruct Hq' as [Hc Hs].
    destruct (in_negated_class [dquote; space] c) eqn:E.
    + destruct (leading_word c s E Hs) as (w & tl & Eq & Hw & Htl & Hqt & Hlen).
      rewrite Eq. destruct (one_match_plain_word w Hw) as [Hw1 Hm].
      destruct fuel as [|fuel]; [lia|].
      rewrite (match_loop_take _ _ _ _ (Hm tl Htl) Hw1).
      rewrite take_app, drop_app, words_plain_word by assumption.
      rewrite IH by (assumption || lia). reflexivity.
    + destruct (not_plain_char c E) as [-> | ->].
      * rewrite Ascii.eqb_refl in Hc. discriminate.
      * rewrite match_loop_skip by apply match_here_space.
        rewrite words_space. apply IH; (assumption || lia).
Qed.

(** X2: on a line without double quotes [arg] appends exactly the words of
    the line, its maximal runs of characters other than the space, in
    order: spaces before, after and between the words count for nothing.
    It throws exactly when the line is not empty and has no word, and
    then appends nothing. *)
Theorem arg_appends_the_words (host : Host.t) (s : string) (st : state) :
  occurs dquote s = false ->
  ToolRunner.args (this (snd (arg host (VString s) false st)))
  = ToolRunner.args (this st) ++ words s
  /\ fst (arg host (VString s) false st)
     = (if negb (String.eqb s "") && Nat.eqb (List.length (words s)) 0
        then Throw TypeError else Ok tt).
Proof.
  intros Hq.
  destruct (String.eqb_spec s "") as [->|Hs].
  - change (arg host (VString "") false st) with (Ok tt, st).
    cbn. rewrite app_nil_r. auto.
  - rewrite arg_string_run by assumption.
    unfold bind, _argStringToArray, String_match_g.
    rewrite (match_loop_words (String.length s)) by (assumption || lia).
    destruct (words s) as [|w ws] eqn:Ew.
    + cbn. rewrite app_nil_r. auto.
    + unfold ret, set_args. cbn [fst snd this ToolRunner.args negb andb
        List.length Nat.eqb]. split; [|reflexivity]. f_equal.
      rewrite <- (map_id (w :: ws)) at 2. apply map_ext_in.
      intros t Ht. apply remove_all_absent.
      assert (Hall : forall s0, occurs dquote s0 = false ->
                forall t0, In t0 (words s0) -> occurs dquote t0 = false).
      { clear. intros s0. unfold words.
        assert (G : occurs dquote s0 = false ->
                  occurs dquote (fst (words_aux s0)) = false
                  /\ forall t0, In t0 (snd (words_aux s0)) ->
                       occurs dquote t0 = false).
        { induction s0 as [|c s0 IH]; cbn [words_aux occurs].
          - intros _. split; [reflexivity|]. intros t0 [].
          - intros H. apply orb_false_iff in H. destruct H as [Hc H].
            destruct (IH H) as [Hw Hws].
            destruct (words_aux s0) as [w0 ws0]. cbn [fst snd] in *.
            destruct (Ascii.eqb c space); cbn [fst snd occurs].
            + split; [reflexivity|]. unfold cons_word.
              destruct (String.eqb w0 ""); [exact Hws|].
              intros t0 [<-|Hin]; [exact Hw | apply Hws, Hin].
            + rewrite Hc, Hw. split; [reflexivity | exact Hws]. }
        intros H0 t0. destruct (G H0) as [Hw Hws].
        destruct (words_aux s0) as [w0 ws0]. cbn [fst snd] in *.
        unfold cons_word. destruct (String.eqb w0 ""); [apply Hws|].
        intros [<-|Hin]; [exact Hw | apply Hws, Hin]. }
      apply (Hall s Hq). rewrite Ew. exact Ht.
Qed.

Lemma arg_appends_the_words_witness :
  ToolRunner.args
    (this (snd (arg talkative_host (VString "  -a   bb c ") false echo_runner)))
  = ToolRunner.args (this echo_runner) ++ words "  -a   bb c "
  /\ fst (arg talkative_host (VString "  -a   bb c ") false echo_runner)
     = (if negb (String.eqb "  -a   bb c " "")
           && Nat.eqb (List.length (words "  -a   bb c ")) 0
        then Throw TypeError else Ok tt).
Proof.
  apply (arg_appends_the_words talkative_host "  -a   bb c " echo_runner).
  reflexivity.
Defined.

(** * Quoted spans written back to back *)

Lemma glue_quoted_stops (l : list string) :
  star_not [dquote; space] (glue (map quoted l)) Some
  = Some (glue (map quoted l)).
Proof. destruct l; reflexivity. Qed.

Lemma match_loop_glue (l : list string) :
  Forall (fun t => occurs dquote t = false) l ->
  forall fuel, String.length (glue (map quoted l)) < fuel ->
  match_loop arg_pattern fuel (glue (map quoted l)) = Some (map quoted l).
Proof.
  induction l as [|t l IH]; intros Hall fuel Hlen.
  - destruct fuel; [lia | reflexivity].
  - inversion Hall as [|t' l' Ht Hl]; subst.
    cbn [map glue] in *. rewrite length_app in Hlen.
    destruct fuel as [|fuel]; [lia|].
    assert (H1 : 1 <= String.length (quoted t))
      by (unfold quoted, q; cbn [append String.length]; lia).
    rewrite (match_loop_take _ _ _ _
               (match_here_quoted t _ Ht (glue_quoted_stops l)) H1).
    rewrite take_app, drop_app, (IH Hl) by lia. reflexivity.
Qed.

(** X5: a token holds at most one quoted span: quoted spans written one
    after the other with no space between them are appended as separate
    arguments, one for each span. *)
Theorem arg_splits_adjacent_quoted_spans (host : Host.t) (l : list string)
    (st : state) :
  Forall (fun t => occurs dquote t = false) l ->
  fst (arg host (VString (glue (map quoted l))) false st) = Ok tt
  /\ ToolRunner.args
       (this (snd (arg host (VString (glue (map quoted l))) false st)))
     = ToolRunner.args (this st) ++ l.
Proof.
  intros Hl. destruct l as [|t l].
  - change (arg host (VString (glue (map quoted []))) false st)
      with (Ok tt, st).
    cbn. rewrite app_nil_r. auto.
  - assert (Hne : glue (map quoted (t :: l)) <> "") by discriminate.
    rewrite arg_string_run by assumption.
    unfold bind, _argStringToArray, String_match_g.
    rewrite (match_loop_glue _ Hl) by lia.
    cbn [map]. unfold ret, set_args. cbn [fst snd this ToolRunner.args].
    split; [reflexivity|]. f_equal.
    change (remove_all dquote (quoted t) :: map (remove_all dquote)
                                              (map quoted l))
      with (map (remove_all dquote) (map quoted (t :: l))).
    rewrite map_map. rewrite <- (map_id (t :: l)) at 2.
    apply map_ext_in. intros a Ha. unfold quoted.
    rewrite !remove_all_app, (remove_all_absent dquote a).
    + change (remove_all dquote q) with EmptyString. cbn [append].
      apply app_empty_r.
    + rewrite Forall_forall in Hl. apply Hl, Ha.
Qed.

Lemma arg_splits_adjacent_quoted_spans_witness :
  fst (arg talkative_host (VString (glue (map quoted ["a b"; "c"]))) false
         echo_runner) = Ok tt
  /\ ToolRunner.args
       (this (snd (arg talkative_host
                     (VString (glue (map quoted ["a b"; "c"]))) false
                     echo_runner)))
     = ToolRunner.args (this echo_runner) ++ ["a b"; "c"].
Proof.
  apply (arg_splits_adjacent_quoted_spans talkative_host ["a b"; "c"]
           echo_runner).
  repeat constructor.
Defined.

(** * Conditional arguments *)

(** X9: [argIf] appends only under a truthy condition ([false], 0, the
    empty string, [null] and [undefined] are not), and then as [arg]
    without the literal flag does: a line of plain words is split into its
    words. *)
Theorem argIf_appends_when_truthy (host : Host.t) (condition : jsval)
    (l : list string) (st : state) :
  forallb plain_word l = true ->
  fst (argIf host condition (VString (join " " l)) st) = Ok tt
  /\ ToolRunner.args
       (this (snd (argIf host condition (VString (join " " l)) st)))
     = ToolRunner.args (this st) ++ (if truthy condition then l else []).
Proof.
  intros Hl. unfold argIf. destruct (truthy condition).
  - rewrite forallb_forall in Hl.
    assert (Hall : Forall one_match l).
    { apply Forall_forall. intros w Hw. apply one_match_plain_word, Hl, Hw. }
    rewrite (arg_on_joined_matches host _ st Hall). cbn [fst snd this].
    split; [reflexivity|]. cbn [ToolRunner.args]. f_equal.
    rewrite <- (map_id l) at 2. apply map_ext_in. intros w Hw.
    apply remove_all_absent, plain_word_no_dquote.
    specialize (Hl w Hw). unfold plain_word in Hl.
    apply andb_true_iff in Hl. apply Hl.
  - unfold ret. cbn [fst snd]. rewrite app_nil_r. auto.
Qed.

Lemma argIf_appends_when_truthy_witness :
  fst (argIf talkative_host (VNumber 0) (VString (join " " ["-v"; "x"]))
         echo_runner) = Ok tt
  /\ ToolRunner.args
       (this (snd (argIf talkative_host (VNumber 0)
                     (VString (join " " ["-v"; "x"])) echo_runner)))
     = ToolRunner.args (this echo_runner)
       ++ (if truthy (VNumber 0) then ["-v"; "x"] else []).
Proof.
  apply (argIf_appends_when_truthy talkative_host (VNumber 0) ["-v"; "x"]
           echo_runner).
  reflexivity.
Defined.
